(** * SimpleHydrology: the interleaved cell pool and its spatial index

    A shallow embedding of [source/cellpool.h] (namespaces [mappool] and
    [quad]) and of its templated sibling (namespaces [mappool] and
    [quadmap]), with the properties of the allocator, of the bounds-checked
    slices, of the tiles and of the tile map. *)

From Stdlib Require Import ZArith Lia List Bool.
From stdpp Require Import base list.
Import ListNotations.
Local Open Scope Z_scope.

(** ** Machine integers

    [int] is a 32-bit two's-complement integer and [size_t] a 64-bit unsigned
    one.  Both are carried by [Z]; every arithmetic operation writes its
    wrap-around out.  Signed overflow, division by zero and
    [INT_MIN / -1] are undefined in C++; the model is total: overflow wraps
    as two's-complement hardware does and a zero divisor gives [Z.quot]'s 0.
    Every theorem whose conclusion depends on the value of a sum, product or
    quotient states the ranges that keep the operation defined. *)

Definition int_min : Z := - 2 ^ 31.
Definition int_max : Z := 2 ^ 31 - 1.
Definition size_max : Z := 2 ^ 64 - 1.

Definition int_range (z : Z) : Prop := int_min <= z <= int_max.
Definition size_range (z : Z) : Prop := 0 <= z <= size_max.

Definition wrap_int (z : Z) : Z := (z + 2 ^ 31) mod 2 ^ 32 - 2 ^ 31.
Definition wrap_size (z : Z) : Z := z mod 2 ^ 64.

Definition int_add (a b : Z) : Z := wrap_int (a + b).
Definition int_sub (a b : Z) : Z := wrap_int (a - b).
Definition int_mul (a b : Z) : Z := wrap_int (a * b).
(** C++ [/] on [int] truncates toward zero: [Z.quot], not [Z.div]. *)
Definition int_div (a b : Z) : Z := wrap_int (Z.quot a b).

(** ** glm::ivec2 *)

Record ivec2 : Type := Ivec2 { x : Z; y : Z }.

(** [ivec2(n)] *)
Definition ivec2_splat (n : Z) : ivec2 := Ivec2 n n.

Definition ivec2_add (a b : ivec2) : ivec2 :=
  Ivec2 (int_add (x a) (x b)) (int_add (y a) (y b)).
Definition ivec2_sub (a b : ivec2) : ivec2 :=
  Ivec2 (int_sub (x a) (x b)) (int_sub (y a) (y b)).
Definition ivec2_mul (a b : ivec2) : ivec2 :=
  Ivec2 (int_mul (x a) (x b)) (int_mul (y a) (y b)).
(** [a / b] with [b] a vector: componentwise. *)
Definition ivec2_div (a b : ivec2) : ivec2 :=
  Ivec2 (int_div (x a) (x b)) (int_div (y a) (y b)).
(** [a / k] with [k] a scalar: every component divided by [k]. *)
Definition ivec2_div_int (a : ivec2) (k : Z) : ivec2 :=
  Ivec2 (int_div (x a) k) (int_div (y a) k).
(** [glm::min], [glm::max] *)
Definition ivec2_min (a b : ivec2) : ivec2 :=
  Ivec2 (Z.min (x a) (x b)) (Z.min (y a) (y b)).
Definition ivec2_max (a b : ivec2) : ivec2 :=
  Ivec2 (Z.max (x a) (x b)) (Z.max (y a) (y b)).

(** ** Pointers

    A pointer to a cell is null or an element offset inside one array
    returned by [new T[n]]; arrays are identified by a block number. *)

Definition block : Type := nat.

Inductive ptr : Type :=
| NULL : ptr
| Ptr (b : block) (ofs : Z) : ptr.

(** [p + n].  The sources only ever add to a pointer they have tested. *)
Definition ptr_add (p : ptr) (n : Z) : ptr :=
  match p with
  | NULL => NULL
  | Ptr b ofs => Ptr b (ofs + n)
  end.

Definition is_null (p : ptr) : bool :=
  match p with
  | NULL => true
  | Ptr _ _ => false
  end.

(** Modelled from the spec: [math::flatten], the helper that turns a
    2-D index into a linear offset, is called by [slice::get] but defined
    in a header that is not part of the sources at hand.  The spec fixes it:
    "row-major convention: offset = p.x * res.y + p.y", and that expression
    is what is taken here. *)
Definition flatten (p res : ivec2) : Z :=
  x p * y res + y p.

(** ** namespace mappool *)

Module mappool.

(** [struct buf]: [T* start = NULL; size_t size = 0;] *)
Record buf : Type := Buf { buf_start : ptr; buf_size : Z }.

(** [{NULL, 0}], which is also a default-constructed [buf]. *)
Definition null_buf : buf := Buf NULL 0.

(** [struct slice]: [buf root; ivec2 res = ivec2(0); int scale = 1;].
    The [slice] of [cellpool.h] is the same structure without the [scale]
    member, which namespace [quad] never reads. *)
Record slice : Type := Slice { slice_root : buf; slice_res : ivec2; slice_scale : Z }.

Definition default_slice : slice := Slice null_buf (ivec2_splat 0) 1.

(** [size()]: [res.x * res.y], an [int] product converted to [size_t]. *)
Definition slice_size (s : slice) : Z :=
  wrap_size (int_mul (x (slice_res s)) (y (slice_res s))).

Definition slice_oob (s : slice) (p : ivec2) : bool :=
  if x p >=? x (slice_res s) then true
  else if y p >=? y (slice_res s) then true
  else if x p <? 0 then true
  else if y p <? 0 then true
  else false.

Definition slice_get (s : slice) (p : ivec2) : ptr :=
  if is_null (buf_start (slice_root s)) then NULL
  else if slice_oob s p then NULL
  else ptr_add (buf_start (slice_root s)) (flatten p (slice_res s)).

(** *** The pool

    The heap holds the arrays made by [new T[n]]; the block number of an
    array is its position in the heap.  Pool operations are heap-state
    transformers. *)

Section Pool.

Context {T : Type}.
(** What a cell of a fresh [new T[n]] array reads as (it is uninitialised). *)
Variable indeterminate : T.

Definition heap : Type := list (list T).

Definition St (A : Type) : Type := heap -> A * heap.
Definition ret {A} (a : A) : St A := fun h => (a, h).
Definition bind {A B} (m : St A) (k : A -> St B) : St B :=
  fun h => let (a, h') := m h in k a h'.

(** [new T[n]] *)
Definition new_array (n : Z) : St ptr :=
  fun h => (Ptr (length h) 0, h ++ [replicate (Z.to_nat n) indeterminate]).

(** [struct pool]: [buf root; deque<buf> free;], the deque as a list whose
    head is [free.front()]. *)
Record pool : Type := Pool { pool_root : buf; pool_free : list buf }.

(** [pool()] *)
Definition empty_pool : pool := Pool null_buf [].

Definition pool_reserve (p : pool) (_size : Z) : St pool :=
  bind (new_array _size) (fun start =>
  ret (Pool (Buf start _size) (Buf start _size :: pool_free p))).

(** [pool(size_t _size)] *)
Definition new_pool (_size : Z) : St pool := pool_reserve empty_pool _size.

Definition pool_get (p : pool) (_size : Z) : St (buf * pool) :=
  match pool_free p with
  | [] => ret (null_buf, p)
  | front :: rest =>
      if _size >? buf_size (pool_root p) then ret (null_buf, p)
      else if buf_size front <? _size then ret (null_buf, p)
      else
        let sec := Buf (buf_start front) _size in
        let front' := Buf (ptr_add (buf_start front) _size)
                          (wrap_size (buf_size front - _size)) in
        ret (sec, Pool (pool_root p) (front' :: rest))
  end.

(** A run of [get] calls, one per requested size, in order. *)
Fixpoint pool_get_all (p : pool) (sizes : list Z) : St (list buf * pool) :=
  match sizes with
  | [] => ret ([], p)
  | n :: sizes' =>
      bind (pool_get p n) (fun '(b, p') =>
      bind (pool_get_all p' sizes') (fun '(bs, p'') =>
      ret (b :: bs, p'')))
  end.

(** The cells a buffer views: [size] cells from [start]. *)
Definition buf_cells (h : heap) (b : buf) : option (list T) :=
  match buf_start b with
  | NULL => None
  | Ptr blk ofs =>
      match h !! blk with
      | None => None
      | Some cells => Some (take (Z.to_nat (buf_size b)) (drop (Z.to_nat ofs) cells))
      end
  end.

(** [*q] for a cell pointer: [None] stands for the undefined read through a
    null pointer or outside every array. *)
Definition load (h : heap) (q : ptr) : option T :=
  match q with
  | NULL => None
  | Ptr blk ofs =>
      if ofs <? 0 then None
      else match h !! blk with
           | None => None
           | Some cells => cells !! Z.to_nat ofs
           end
  end.

End Pool.

End mappool.

(** ** float and glm::vec3

    The cell members and the surface normal are [float]s.  Their arithmetic
    is kept abstract: a type with the constants and operations the sources
    use, and the [glm] functions [cross], [length] and [normalize] on
    [vec3]. *)

Class Float : Type := {
  float : Type;
  f_zero : float;                      (* 0.0 *)
  f_one : float;                       (* 1.0 *)
  f_minus_one : float;                 (* -1.0 *)
  f_04 : float;                        (* 0.4f *)
  f_of_int : Z -> float;               (* conversion of an [int] *)
  f_add : float -> float -> float;
  f_sub : float -> float -> float;
  f_mul : float -> float -> float;
  f_positive : float -> bool;          (* [x > 0] *)
  f_erf : float -> float;              (* [erf] *)
}.

Record vec3 `{Float} : Type := Vec3 { vx : float; vy : float; vz : float }.
Arguments Vec3 {_} _ _ _.
Arguments vx {_} _.
Arguments vy {_} _.
Arguments vz {_} _.

(** [a + b] and [a * b] on [vec3] are componentwise. *)
Definition vec3_add `{Float} (a b : vec3) : vec3 :=
  Vec3 (f_add (vx a) (vx b)) (f_add (vy a) (vy b)) (f_add (vz a) (vz b)).
Definition vec3_mul `{Float} (a b : vec3) : vec3 :=
  Vec3 (f_mul (vx a) (vx b)) (f_mul (vy a) (vy b)) (f_mul (vz a) (vz b)).

Class Glm `{Float} : Type := {
  cross : vec3 -> vec3 -> vec3;
  length3 : vec3 -> float;             (* [length] *)
  normalize : vec3 -> vec3;
}.

(** [k * v] for an [int] and an [ivec2]. *)
Definition ivec2_scale (k : Z) (v : ivec2) : ivec2 :=
  Ivec2 (int_mul k (x v)) (int_mul k (y v)).

(** The body shared by [quad::_normal] and by the two [reduce::normal]
    functions, which differ in the step [L] between samples
    ([quad::levelsize] or [RES]), in the vertical scale of [s] and in the
    [oob] and [height] they call.  A height that cannot be read makes the
    whole result undefined. *)
Definition normal_body `{Glm} (L : Z) (s : vec3)
    (oob : ivec2 -> bool) (height : ivec2 -> option float) (p : ivec2) : option vec3 :=
  let rise (q : ivec2) : option float :=
    hq ← height q; hp ← height p; Some (f_sub hq hp) in
  let up := ivec2_add p (ivec2_scale L (Ivec2 0 1)) in
  let right := ivec2_add p (ivec2_scale L (Ivec2 1 0)) in
  let down := ivec2_sub p (ivec2_scale L (Ivec2 0 1)) in
  let left := ivec2_sub p (ivec2_scale L (Ivec2 1 0)) in
  let n := Vec3 f_zero f_zero f_zero in
  n ← (if negb (oob (ivec2_add p (ivec2_scale L (Ivec2 1 1)))) then
         a ← rise up; b ← rise right;
         Some (vec3_add n (cross (vec3_mul s (Vec3 f_zero a f_one))
                                 (vec3_mul s (Vec3 f_one b f_zero))))
       else Some n);
  n ← (if negb (oob (ivec2_add p (ivec2_scale L (Ivec2 (-1) (-1))))) then
         a ← rise down; b ← rise left;
         Some (vec3_add n (cross (vec3_mul s (Vec3 f_zero a f_minus_one))
                                 (vec3_mul s (Vec3 f_minus_one b f_zero))))
       else Some n);
  n ← (if negb (oob (ivec2_add p (ivec2_scale L (Ivec2 1 (-1))))) then
         a ← rise right; b ← rise down;
         Some (vec3_add n (cross (vec3_mul s (Vec3 f_one a f_zero))
                                 (vec3_mul s (Vec3 f_zero b f_minus_one))))
       else Some n);
  n ← (if negb (oob (ivec2_add p (ivec2_scale L (Ivec2 (-1) 1)))) then
         a ← rise left; b ← rise up;
         Some (vec3_add n (cross (vec3_mul s (Vec3 f_minus_one a f_zero))
                                 (vec3_mul s (Vec3 f_zero b f_one))))
       else Some n);
  Some (if f_positive (length3 n) then normalize n else n).

(** The values [indexnode<N>] appends to [vertexpool.indices] for a node of
    resolution [res], in order: two triangles per grid square.  The code is
    the same in both namespaces. *)
Definition indexnode_indices (N : Z) (res : ivec2) : list Z :=
  i ← seqZ 0 (int_sub (int_div (x res) N) 1);
  j ← seqZ 0 (int_sub (int_div (y res) N) 1);
  [ flatten (Ivec2 i j) (ivec2_div_int res N);
    flatten (Ivec2 i (int_add j 1)) (ivec2_div_int res N);
    flatten (Ivec2 (int_add i 1) j) (ivec2_div_int res N);
    flatten (Ivec2 (int_add i 1) j) (ivec2_div_int res N);
    flatten (Ivec2 i (int_add j 1)) (ivec2_div_int res N);
    flatten (Ivec2 (int_add i 1) (int_add j 1)) (ivec2_div_int res N) ].

(** A pointer to a tile of a map: null, or the address of element [ind] of
    the map's [nodes].  Taking the address does not dereference it. *)
Inductive node_ptr : Type :=
| NullNode : node_ptr
| NodeAt (ind : Z) : node_ptr.

(** ** namespace quadmap (the templated map) *)

Module quadmap.
Import mappool.

(** [struct node]: [ivec2 pos; ivec2 res; uint* vertex; slice<T> s;] *)
Record node : Type :=
  Node { node_pos : ivec2; node_res : ivec2; node_vertex : ptr; node_s : slice }.

Definition node_get (n : node) (p : ivec2) : ptr :=
  slice_get (node_s n) (ivec2_div_int (ivec2_sub p (node_pos n)) (slice_scale (node_s n))).

Definition node_oob (n : node) (p : ivec2) : bool :=
  slice_oob (node_s n) (ivec2_div_int (ivec2_sub p (node_pos n)) (slice_scale (node_s n))).

(** [struct map]: [vector<node<T>> nodes; ivec2 _min = ivec2(0);
    ivec2 _max = ivec2(0);] *)
Record map : Type := Map { map_nodes : list node; _min : ivec2; _max : ivec2 }.

(** A default-constructed map. *)
Definition empty_map : map := Map [] (ivec2_splat 0) (ivec2_splat 0).

Definition map_add (m : map) (n : node) : map :=
  Map (map_nodes m ++ [n])
      (ivec2_min (_min m) (node_pos n))
      (ivec2_max (_max m) (ivec2_add (node_pos n) (node_res n))).

(** A run of [add] calls, in order. *)
Definition map_add_all (m : map) (ns : list node) : map := fold_left map_add ns m.

Definition map_oob (m : map) (p : ivec2) : bool :=
  if x p <? x (_min m) then true
  else if y p <? y (_min m) then true
  else if x p >=? x (_max m) then true
  else if y p >=? y (_max m) then true
  else false.

(** What [*ptr] reads for a pointer returned by [get]; [None] where the
    access is outside the vector. *)
Definition map_deref (m : map) (q : node_ptr) : option node :=
  match q with
  | NullNode => None
  | NodeAt ind => if ind <? 0 then None else map_nodes m !! Z.to_nat ind
  end.

Section Layout.

(** The macros [WSIZE] (world units per tile and axis) and [TILES] (tiles
    per axis) are defined by the including program. *)
Variables WSIZE TILES : Z.

Definition map_get (m : map) (p : ivec2) : node_ptr :=
  if map_oob m p then NullNode
  else
    let p := ivec2_div p (Ivec2 WSIZE WSIZE) in
    let ind := int_add (int_mul (x p) TILES) (y p) in
    NodeAt ind.

End Layout.

End quadmap.

(** ** namespace quad (the fixed 2 x 2 map of [cellpool.h]) *)

Module quad.
Import mappool.

Definition mapscale : Z := 80.

Definition tilesize : Z := 512.
Definition tilearea : Z := int_mul tilesize tilesize.
Definition tileres : ivec2 := ivec2_splat tilesize.

Definition mapsize : Z := 2.
Definition maparea : Z := int_mul mapsize mapsize.

Definition size : Z := int_mul mapsize tilesize.
Definition area : Z := int_mul maparea tilearea.
Definition res : ivec2 := ivec2_splat size.

Definition levelsize : Z := 2.
Definition levelarea : Z := int_mul levelsize levelsize.

(** [struct cell]: seven [float] members. *)
Record cell (float : Type) : Type :=
  Cell { height : float; discharge : float; momentumx : float; momentumy : float;
         discharge_track : float; momentumx_track : float; momentumy_track : float }.

(** [struct node]: [ivec2 pos; ivec2 res; uint* vertex; slice<cell> s;] *)
Record node : Type :=
  Node { node_pos : ivec2; node_res : ivec2; node_vertex : ptr; node_s : slice }.

Definition default_node : node :=
  Node (ivec2_splat 0) (ivec2_splat 0) NULL default_slice.

Definition node_get (n : node) (p : ivec2) : ptr :=
  slice_get (node_s n) (ivec2_div_int (ivec2_sub p (node_pos n)) levelsize).

Definition node_oob (n : node) (p : ivec2) : bool :=
  slice_oob (node_s n) (ivec2_div_int (ivec2_sub p (node_pos n)) levelsize).

(** [struct map]: [node nodes[maparea];] *)
Record map : Type := Map { map_nodes : list node }.

(** A default-constructed map: [maparea] default nodes. *)
Definition new_map : map := Map (replicate (Z.to_nat maparea) default_node).

Definition map_oob (p : ivec2) : bool :=
  if x p <? 0 then true
  else if y p <? 0 then true
  else if x p >=? size then true
  else if y p >=? size then true
  else false.

Definition map_get (p : ivec2) : node_ptr :=
  if map_oob p then NullNode
  else
    let p := ivec2_div p tileres in
    let ind := int_add (int_mul (x p) mapsize) (y p) in
    NodeAt ind.

Definition map_deref (m : map) (q : node_ptr) : option node :=
  match q with
  | NullNode => None
  | NodeAt ind => if ind <? 0 then None else map_nodes m !! Z.to_nat ind
  end.

Section Init.

Context {T : Type}.

(** The vertex pool is the renderer's; the map only stores the pointer
    that [section] hands out and passes each finished node to [indexnode],
    which writes to the vertex pool alone.  Of the arguments of [section]
    the element count is kept; the others are constants or read from the
    vertex pool itself. *)
Variable Vertexpool : Type.
Variable vertexpool_section : Z -> Vertexpool -> ptr * Vertexpool.
Variable indexnode : Z -> Vertexpool -> node -> Vertexpool.

(** The body of the two loops of [init], at [(i, j)]. *)
Definition init_step (i j : Z) (st : map * Vertexpool * pool)
  : St (T := T) (map * Vertexpool * pool) :=
  let '(m, vertexpool, cellpool) := st in
  let ind := int_add (int_mul i mapsize) j in
  let '(vertex, vertexpool) := vertexpool_section (int_div tilearea levelarea) vertexpool in
  let nodes := <[Z.to_nat ind := Node (ivec2_mul tileres (Ivec2 i j)) tileres vertex default_slice]>
                 (map_nodes m) in
  bind (pool_get cellpool (int_div tilearea levelarea)) (fun '(b, cellpool) =>
  let nodes := alter (fun n => Node (node_pos n) (node_res n) (node_vertex n)
                                    (Slice b (ivec2_div_int tileres levelsize) 1))
                     (Z.to_nat ind) nodes in
  let vertexpool :=
    match nodes !! Z.to_nat ind with
    | Some n => indexnode levelsize vertexpool n
    | None => vertexpool
    end in
  ret (Map nodes, vertexpool, cellpool)).

(** [for(int i = a; i < b; i++) body(i)], with [fuel = b - a] rounds. *)
Fixpoint for_loop {S} (fuel : nat) (i : Z) (body : Z -> S -> St (T := T) S) (s : S)
  : St (T := T) S :=
  match fuel with
  | O => ret s
  | S fuel' => bind (body i s) (for_loop fuel' (i + 1) body)
  end.

Definition init (m : map) (vertexpool : Vertexpool) (cellpool : pool)
  : St (T := T) (map * Vertexpool * pool) :=
  for_loop (Z.to_nat mapsize) 0 (fun i =>
    for_loop (Z.to_nat mapsize) 0 (fun j => init_step i j))
    (m, vertexpool, cellpool).

End Init.

Section Query.

Context `{Glm}.

Definition _normal (oob : ivec2 -> bool) (height : ivec2 -> option float) (p : ivec2)
  : option vec3 :=
  normal_body levelsize (Vec3 f_one (f_of_int mapscale) f_one) oob height p.

(** [node::height]: [get(p)->height], with no test of the pointer. *)
Definition node_height (h : heap (T := cell float)) (n : node) (p : ivec2) : option float :=
  c ← load h (node_get n p); Some (height float c).

(** [node::discharge]: [erf(0.4f*get(p)->discharge)]. *)
Definition node_discharge (h : heap (T := cell float)) (n : node) (p : ivec2)
  : option float :=
  c ← load h (node_get n p); Some (f_erf (f_mul f_04 (discharge float c))).

Definition node_normal (h : heap (T := cell float)) (n : node) (p : ivec2) : option vec3 :=
  _normal (node_oob n) (node_height h n) p.

(** [map::height]: [0.0f] where [get] is null, else the tile's height. *)
Definition map_height (h : heap (T := cell float)) (m : map) (p : ivec2) : option float :=
  match map_get p with
  | NullNode => Some f_zero
  | q => n ← map_deref m q; node_height h n p
  end.

Definition map_discharge (h : heap (T := cell float)) (m : map) (p : ivec2)
  : option float :=
  match map_get p with
  | NullNode => Some f_zero
  | q => n ← map_deref m q; node_discharge h n p
  end.

Definition map_normal (h : heap (T := cell float)) (m : map) (p : ivec2) : option vec3 :=
  _normal map_oob (map_height h m) p.

End Query.

End quad.

(** ** namespace reduce (the reduction functions over the templated map) *)

Module reduce.
Import mappool.

(** [struct cell]: seven [float] members. *)
Record cell (float : Type) : Type :=
  Cell { height : float; discharge : float; momentumx : float; momentumy : float;
         discharge_track : float; momentumx_track : float; momentumy_track : float }.

Section Reduce.

Context `{Glm}.

(** The macros of the including program: tile extent, tiles per axis,
    sampling step of the normal, vertical scale. *)
Variables WSIZE TILES RES : Z.
Variable SCALE : float.

(** [height(node*, p)]: [t->get(p)->height]. *)
Definition height_node (h : heap (T := cell float)) (t : quadmap.node) (p : ivec2)
  : option float :=
  c ← load h (quadmap.node_get t p); Some (height float c).

(** [height(map&, p)].  [p] is divided in place before it is passed on. *)
Definition height_map (h : heap (T := cell float)) (m : quadmap.map) (p : ivec2)
  : option float :=
  if quadmap.map_oob m p then Some f_zero
  else
    let p := ivec2_div p (Ivec2 WSIZE WSIZE) in
    let ind := int_add (int_mul (x p) TILES) (y p) in
    t ← quadmap.map_deref m (NodeAt ind); height_node h t p.

(** [discharge(node*, p)]: [erf(0.4f*t->get(p)->discharge)]. *)
Definition discharge_node (h : heap (T := cell float)) (t : quadmap.node) (p : ivec2)
  : option float :=
  c ← load h (quadmap.node_get t p); Some (f_erf (f_mul f_04 (discharge float c))).

(** [discharge(map&, p)] *)
Definition discharge_map (h : heap (T := cell float)) (m : quadmap.map) (p : ivec2)
  : option float :=
  if quadmap.map_oob m p then Some f_zero
  else
    let p := ivec2_div p (Ivec2 WSIZE WSIZE) in
    let ind := int_add (int_mul (x p) TILES) (y p) in
    t ← quadmap.map_deref m (NodeAt ind); discharge_node h t p.

(** [normal(node*, p)] *)
Definition normal_node (h : heap (T := cell float)) (t : quadmap.node) (p : ivec2)
  : option vec3 :=
  normal_body RES (Vec3 f_one SCALE f_one) (quadmap.node_oob t) (height_node h t) p.

(** [normal(map&, p)] *)
Definition normal_map (h : heap (T := cell float)) (m : quadmap.map) (p : ivec2)
  : option vec3 :=
  normal_body RES (Vec3 f_one SCALE f_one) (quadmap.map_oob m) (height_map h m) p.

End Reduce.

End reduce.

(** ** Vocabulary for the allocator's properties *)

Module arena.
Import mappool.

(** The states a pool can be in: [pool()], then calls of [reserve] and
    [get] with [size_t] arguments. *)
Inductive reachable {T : Type} (indeterminate : T) : pool -> Prop :=
| reach_empty : reachable indeterminate empty_pool
| reach_reserve (p : pool) (n : Z) (h : heap (T := T)) :
    reachable indeterminate p -> size_range n ->
    reachable indeterminate (fst (pool_reserve indeterminate p n h))
| reach_get (p : pool) (n : Z) (h : heap (T := T)) :
    reachable indeterminate p -> size_range n ->
    reachable indeterminate (snd (fst (pool_get p n h))).

(** The three conditions under which [get] is documented to fail: no free
    region, a request above the total capacity, a request above the length
    of the front free region. *)
Definition refused (p : pool) (n : Z) : Prop :=
  pool_free p = []
  \/ n > buf_size (pool_root p)
  \/ exists front rest, pool_free p = front :: rest /\ n > buf_size front.

(** Sum of the requested sizes. *)
Definition total (sizes : list Z) : Z := fold_right Z.add 0 sizes.

(** Cell [o] of block [blk] lies in the range a buffer views. *)
Definition covers (b : buf) (blk : block) (o : Z) : Prop :=
  exists s, buf_start b = Ptr blk s /\ s <= o < s + buf_size b.

(** Back-to-back ranges of the given sizes in block [blk], from offset [o]. *)
Fixpoint layout (blk : block) (o : Z) (sizes : list Z) : list buf :=
  match sizes with
  | [] => []
  | n :: sizes' => Buf (Ptr blk o) n :: layout blk (o + n) sizes'
  end.

(** What a run of [get] calls returns while the front free region is [f]
    cells at offset [o] of block [blk] and the capacity is at least [f]: a
    request that fits is cut from the front, one that does not is refused
    and changes nothing. *)
Fixpoint greedy (blk : block) (o f : Z) (sizes : list Z) : list buf :=
  match sizes with
  | [] => []
  | n :: sizes' =>
      if n >? f then null_buf :: greedy blk o f sizes'
      else Buf (Ptr blk o) n :: greedy blk (o + n) (f - n) sizes'
  end.

End arena.

(** ** Vocabulary for the map's properties *)

Module grid.

(** World point [p] lies in the footprint of a tile placed at [pos] with
    extent [res]: [pos <= p < pos + res] on both axes. *)
Definition in_footprint (pos res p : ivec2) : Prop :=
  x pos <= x p < x pos + x res /\ y pos <= y p < y pos + y res.

(** The grid as the claim about [map::get] words it: equal-sized tiles on a
    lattice with a fixed tile-count per axis.  [TILES] x [TILES] tiles of
    [WSIZE] x [WSIZE] world units were added to a fresh map, one on every
    cell of a lattice of step [WSIZE] that starts at some [origin]; nothing
    is said about where the origin is or in which order the tiles were
    added. *)
Definition on_lattice (WSIZE TILES : Z) (m : quadmap.map) : Prop :=
  0 < WSIZE /\ 0 < TILES
  /\ TILES * WSIZE <= int_max /\ TILES * TILES <= int_max
  /\ m = quadmap.map_add_all quadmap.empty_map (quadmap.map_nodes m)
  /\ length (quadmap.map_nodes m) = Z.to_nat (TILES * TILES)
  /\ exists origin : ivec2,
      forall i j, 0 <= i < TILES -> 0 <= j < TILES ->
        exists (k : nat) (n : quadmap.node),
          quadmap.map_nodes m !! k = Some n
          /\ quadmap.node_pos n = Ivec2 (x origin + i * WSIZE) (y origin + j * WSIZE)
          /\ quadmap.node_res n = Ivec2 WSIZE WSIZE.

(** A uniform grid anchored at the origin and stored row-major: [TILES] x
    [TILES] tiles of [WSIZE] x [WSIZE] world units, tile [(i, j)] placed at
    [(i * WSIZE, j * WSIZE)] and stored at index [i * TILES + j] (the
    arrangement [quad::map::init] builds), put into a fresh map by [add] in
    index order; the world extent and the tile count fit an [int]. *)
Definition uniform (WSIZE TILES : Z) (m : quadmap.map) : Prop :=
  0 < WSIZE /\ 0 < TILES
  /\ TILES * WSIZE <= int_max /\ TILES * TILES <= int_max
  /\ m = quadmap.map_add_all quadmap.empty_map (quadmap.map_nodes m)
  /\ length (quadmap.map_nodes m) = Z.to_nat (TILES * TILES)
  /\ (forall i j, 0 <= i < TILES -> 0 <= j < TILES ->
      exists n, quadmap.map_nodes m !! Z.to_nat (i * TILES + j) = Some n
                /\ quadmap.node_pos n = Ivec2 (i * WSIZE) (j * WSIZE)
                /\ quadmap.node_res n = Ivec2 WSIZE WSIZE).

(** Every in-bounds point of a slice addresses a cell that the heap holds. *)
Definition backed {T : Type} (h : mappool.heap (T := T)) (s : mappool.slice) : Prop :=
  forall q, mappool.slice_oob s q = false -> is_Some (mappool.load h (mappool.slice_get s q)).

End grid.

(** ** Concrete tiles used in the examples below *)

Module examples.
Import mappool.

(** A tile of scale 2 whose allocation failed: its slice wraps [{NULL, 0}]. *)
Definition dead_tile : quadmap.node :=
  quadmap.Node (Ivec2 0 0) (Ivec2 8 8) NULL (Slice null_buf (Ivec2 4 4) 2).

(** The same tile, backed by 16 cells of block 0. *)
Definition coarse_tile : quadmap.node :=
  quadmap.Node (Ivec2 0 0) (Ivec2 8 8) NULL (Slice (Buf (Ptr 0%nat 0) 16) (Ivec2 4 4) 2).

(** A tile away from the origin. *)
Definition far_tile : quadmap.node :=
  quadmap.Node (Ivec2 10 10) (Ivec2 5 5) NULL (Slice (Buf (Ptr 0%nat 0) 25) (Ivec2 5 5) 1).

(** A uniform 2 x 2 grid of 4 x 4 tiles, one cell per world unit, built
    by [add]; tile [(i, j)] views cells [16 * (2 i + j) ..] of block 0. *)
Definition small_tile (i j : Z) : quadmap.node :=
  quadmap.Node (Ivec2 (i * 4) (j * 4)) (Ivec2 4 4) NULL
               (Slice (Buf (Ptr 0%nat (16 * (i * 2 + j))) 16) (Ivec2 4 4) 1).

Definition small_grid : quadmap.map :=
  quadmap.map_add_all quadmap.empty_map
    [small_tile 0 0; small_tile 0 1; small_tile 1 0; small_tile 1 1].

(** The same four tiles, added column by column. *)
Definition column_first_grid : quadmap.map :=
  quadmap.map_add_all quadmap.empty_map
    [small_tile 0 0; small_tile 1 0; small_tile 0 1; small_tile 1 1].

(** A 2 x 2 grid of 4 x 4 tiles whose lattice starts at [(4, 4)], added row
    by row. *)
Definition shifted_tile (i j : Z) : quadmap.node :=
  quadmap.Node (Ivec2 (4 + i * 4) (4 + j * 4)) (Ivec2 4 4) NULL
               (Slice (Buf (Ptr 0%nat (16 * (i * 2 + j))) 16) (Ivec2 4 4) 1).

Definition shifted_grid : quadmap.map :=
  quadmap.map_add_all quadmap.empty_map
    [shifted_tile 0 0; shifted_tile 0 1; shifted_tile 1 0; shifted_tile 1 1].

(** A cell pool with room for one tile of [quad] only, and a vertex pool
    that holds nothing. *)
Definition one_tile_pool : pool * heap (T := unit) := new_pool tt 65536 [].

Definition null_section (n : Z) (vertexpool : unit) : ptr * unit := (NULL, vertexpool).

Definition null_indexnode (N : Z) (vertexpool : unit) (t : quad.node) : unit := vertexpool.

(** Integer stand-ins for the [float] operations, to evaluate examples. *)
Definition z_float : Float :=
  {| float := Z; f_zero := 0; f_one := 1; f_minus_one := -1; f_04 := 0;
     f_of_int := fun z => z; f_add := Z.add; f_sub := Z.sub; f_mul := Z.mul;
     f_positive := fun z => 0 <? z; f_erf := fun z => z |}.

Definition z_glm : Glm (H := z_float) :=
  {| cross := fun a b : vec3 (H := z_float) =>
       Vec3 (H := z_float)
            (vy a * vz b - vy b * vz a) (vz a * vx b - vz b * vx a)
            (vx a * vy b - vx b * vy a);
     length3 := fun a : vec3 (H := z_float) => vx a * vx a + vy a * vy a + vz a * vz a;
     normalize := fun a : vec3 (H := z_float) => a |}.

(** A heap whose block 0 holds 64 cells, cell [c] of height [c]: the cells
    of [small_grid] after some simulation. *)
Definition small_heap : heap (T := reduce.cell Z) :=
  [map (fun c => reduce.Cell Z c 0 0 0 0 0 0) (seqZ 0 64)].

(** A tile of [quad] at the origin with a 4 x 4 slice, and a heap whose
    block 0 holds its 16 cells, cell [c] of height [c]. *)
Definition quad_tile : quad.node :=
  quad.Node (Ivec2 0 0) (Ivec2 8 8) NULL (Slice (Buf (Ptr 0%nat 0) 16) (Ivec2 4 4) 1).

Definition quad_heap : heap (T := quad.cell Z) :=
  [map (fun c => quad.Cell Z c 0 0 0 0 0 0) (seqZ 0 16)].

(** A heap whose block 0 holds the cells of the four tiles of [quad]. *)
Definition full_heap : heap (T := quad.cell Z) :=
  [replicate (Z.to_nat 262144) (quad.Cell Z 7 0 0 0 0 0 0)].

(** A fresh pool of [C] cells of [quad]. *)
Definition cell_pool (C : Z) : pool * heap (T := quad.cell Z) :=
  new_pool (quad.Cell Z 0 0 0 0 0 0 0) C [].

End examples.

(** * Properties *)

(** ** Machine integers *)

Lemma wrap_int_id (z : Z) : int_range z -> wrap_int z = z.
Proof.
  unfold int_range, int_min, int_max, wrap_int. intros Hz.
  rewrite Z.mod_small; lia.
Qed.

Lemma wrap_size_id (z : Z) : size_range z -> wrap_size z = z.
Proof.
  unfold size_range, size_max, wrap_size. intros Hz.
  rewrite Z.mod_small; lia.
Qed.

(** Away from a zero divisor and from [INT_MIN / -1], [int] division is
    the truncating quotient. *)
Lemma int_div_quot (a b : Z) :
  int_range a -> b <> 0 -> b <> -1 -> int_div a b = Z.quot a b.
Proof.
  intros Ha Hb Hb1. unfold int_div. apply wrap_int_id.
  destruct (Z.eq_dec b 1) as [-> | Hb2].
  - rewrite Z.quot_1_r. exact Ha.
  - assert (Hq : Z.abs (Z.quot a b) <= 2 ^ 30).
    { rewrite <- Z.quot_abs by assumption.
      apply Z.quot_le_upper_bound; [lia |].
      unfold int_range, int_min, int_max in Ha. lia. }
    unfold int_range, int_min, int_max. lia.
Qed.

(** The quotient of a non-negative [int] by a positive one is the floor. *)
Lemma int_div_nonneg (a b : Z) :
  0 <= a -> int_range a -> 0 < b -> int_div a b = a / b.
Proof.
  intros Ha Hr Hb. rewrite int_div_quot; [| assumption | lia | lia].
  apply Z.quot_div_nonneg; lia.
Qed.

(** Truncation toward zero: everything strictly between [-b] and [b]
    divides to [0]. *)
Lemma int_div_small (a b : Z) : - b < a < b -> int_div a b = 0.
Proof.
  intros Hab. unfold int_div.
  assert (Hq : Z.quot a b = 0).
  { destruct (Z_lt_le_dec a 0) as [Hneg | Hpos].
    - replace a with (- (- a)) by lia. rewrite Z.quot_opp_l by lia.
      rewrite Z.quot_small by lia. reflexivity.
    - apply Z.quot_small. lia. }
  rewrite Hq. reflexivity.
Qed.

(** ** Slices *)

Import mappool.

Lemma slice_oob_true (s : slice) (p : ivec2) :
  slice_oob s p = true <->
  x p < 0 \/ y p < 0 \/ x p >= x (slice_res s) \/ y p >= y (slice_res s).
Proof.
  unfold slice_oob.
  destruct (Z.geb_spec (x p) (x (slice_res s)));
    destruct (Z.geb_spec (y p) (y (slice_res s)));
    destruct (Z.ltb_spec (x p) 0); destruct (Z.ltb_spec (y p) 0);
    split; intros Hgoal; try reflexivity; try discriminate; lia.
Qed.

Lemma ptr_add_not_null (q : ptr) (n : Z) : q <> NULL -> ptr_add q n <> NULL.
Proof. destruct q; simpl; congruence. Qed.

Lemma slice_get_null (s : slice) (p : ivec2) :
  slice_get s p = NULL <-> buf_start (slice_root s) = NULL \/ slice_oob s p = true.
Proof.
  unfold slice_get.
  destruct (buf_start (slice_root s)) as [| b o] eqn:Hstart; simpl.
  - split; auto.
  - destruct (slice_oob s p); split; intros H; auto.
    + discriminate.
    + destruct H; discriminate.
Qed.

Lemma slice_get_in_bounds (s : slice) (p : ivec2) (b : block) (o : Z) :
  buf_start (slice_root s) = Ptr b o -> slice_oob s p = false ->
  slice_get s p = Ptr b (o + flatten p (slice_res s)).
Proof.
  intros Hstart Hoob. unfold slice_get. rewrite Hstart, Hoob. reflexivity.
Qed.

Lemma slice_get_dead (s : slice) (p : ivec2) :
  buf_start (slice_root s) = NULL -> slice_get s p = NULL.
Proof. intros H. apply slice_get_null. left. exact H. Qed.

(** C3.  [slice::get] returns null exactly when the backing pointer is null
    or the point is out of bounds, and [slice::oob] holds exactly when a
    coordinate is negative or reaches the resolution. *)
Theorem slice_get_null_iff_oob_or_unbacked (s : slice) (p : ivec2) :
  (slice_get s p = NULL <->
     buf_start (slice_root s) = NULL \/ slice_oob s p = true)
  /\ (slice_oob s p = true <->
     x p < 0 \/ y p < 0 \/ x p >= x (slice_res s) \/ y p >= y (slice_res s)).
Proof. split; [apply slice_get_null | apply slice_oob_true]. Qed.

(** C7.  For a backed slice and an in-bounds point, [get] is the backing
    pointer advanced by [p.x * res.y + p.y]; on the 4 x 4 tile at the origin
    with scale 1, [(2,3)] is cell 11 and [(4,0)], [(-1,0)] are null. *)
Theorem slice_get_row_major_offset :
  (forall (s : slice) (p : ivec2) (b : block) (o : Z),
      buf_start (slice_root s) = Ptr b o -> slice_oob s p = false ->
      slice_get s p = ptr_add (Ptr b o) (x p * y (slice_res s) + y p))
  /\ (forall (b : block) (o : Z) (vertex : ptr),
      let backing := Ptr b o in
      let T := quadmap.Node (Ivec2 0 0) (Ivec2 4 4) vertex
                            (Slice (Buf backing 16) (Ivec2 4 4) 1) in
      quadmap.node_get T (Ivec2 2 3) = ptr_add backing 11
      /\ quadmap.node_get T (Ivec2 4 0) = NULL
      /\ quadmap.node_get T (Ivec2 (-1) 0) = NULL).
Proof.
  split.
  - intros s p b o Hstart Hoob. rewrite (slice_get_in_bounds s p b o Hstart Hoob).
    reflexivity.
  - intros b o vertex. cbv zeta. repeat split; vm_compute; reflexivity.
Qed.

Lemma slice_get_row_major_offset_witness :
  slice_get (Slice (Buf (Ptr 0%nat 0) 16) (Ivec2 4 4) 1) (Ivec2 2 3) = Ptr 0%nat 11.
Proof.
  exact (proj1 slice_get_row_major_offset (Slice (Buf (Ptr 0%nat 0) 16) (Ivec2 4 4) 1)
               (Ivec2 2 3) 0%nat 0 eq_refl eq_refl).
Defined.

(** ** Tiles *)

(** C6.  A tile's [get] and [oob] are its slice's [get] and [oob] at the
    local coordinate [(p - pos) / scale], taken componentwise in [int]
    arithmetic; the scale is the slice's own in [quadmap] and the level size
    in [quad]. *)
Theorem node_get_oob_forward_local (p : ivec2) :
  (forall T : quadmap.node,
      let k := slice_scale (quadmap.node_s T) in
      let q := Ivec2 (int_div (int_sub (x p) (x (quadmap.node_pos T))) k)
                     (int_div (int_sub (y p) (y (quadmap.node_pos T))) k) in
      quadmap.node_get T p = slice_get (quadmap.node_s T) q
      /\ quadmap.node_oob T p = slice_oob (quadmap.node_s T) q)
  /\ (forall T : quad.node,
      let q := Ivec2 (int_div (int_sub (x p) (x (quad.node_pos T))) quad.levelsize)
                     (int_div (int_sub (y p) (y (quad.node_pos T))) quad.levelsize) in
      quad.node_get T p = slice_get (quad.node_s T) q
      /\ quad.node_oob T p = slice_oob (quad.node_s T) q).
Proof. split; intros T; split; reflexivity. Qed.

(** ** The map's bounding rectangle *)

(** C10.  A map to which nothing was added has [_min = _max = (0,0)]; every
    point is out of bounds and [get] is null everywhere. *)
Theorem empty_map_everything_oob (WSIZE TILES : Z) (p : ivec2) :
  quadmap._min quadmap.empty_map = Ivec2 0 0
  /\ quadmap._max quadmap.empty_map = Ivec2 0 0
  /\ quadmap.map_oob quadmap.empty_map p = true
  /\ quadmap.map_get WSIZE TILES quadmap.empty_map p = NullNode.
Proof.
  assert (Hoob : quadmap.map_oob quadmap.empty_map p = true).
  { unfold quadmap.map_oob. simpl.
    destruct (Z.ltb_spec (x p) 0); [reflexivity |].
    destruct (Z.ltb_spec (y p) 0); [reflexivity |].
    destruct (Z.geb_spec (x p) 0); [reflexivity | lia]. }
  repeat split; try assumption.
  unfold quadmap.map_get. rewrite Hoob. reflexivity.
Qed.

(** ** Truncation toward zero in the local coordinate *)

(** World points less than one scale step left of (or below) the origin of
    a tile have local coordinate 0 on that axis, like the origin itself. *)
Lemma local_coordinate_left (a o k : Z) :
  2 <= k -> int_range k -> o - k < a < o ->
  int_div (int_sub a o) k = 0.
Proof.
  intros Hk Hr Ha. unfold int_sub.
  rewrite wrap_int_id by (unfold int_range, int_min, int_max in *; lia).
  apply int_div_small. lia.
Qed.

Lemma local_coordinate_origin (o k : Z) : int_div (int_sub o o) k = 0.
Proof.
  unfold int_sub. rewrite Z.sub_diag. reflexivity.
Qed.

Lemma local_left_is_origin_column (pos p : ivec2) (k : Z) :
  2 <= k -> int_range k -> x pos - k < x p < x pos ->
  ivec2_div_int (ivec2_sub p pos) k
  = ivec2_div_int (ivec2_sub (Ivec2 (x pos) (y p)) pos) k
  /\ x (ivec2_div_int (ivec2_sub p pos) k) = 0.
Proof.
  intros Hk Hr Hp. unfold ivec2_div_int, ivec2_sub. simpl.
  rewrite local_coordinate_left by assumption.
  rewrite local_coordinate_origin. split; reflexivity.
Qed.

Lemma slice_left_of_origin (s : slice) (pos p : ivec2) (k : Z) :
  let edge := Ivec2 (x pos) (y p) in
  let q := ivec2_div_int (ivec2_sub p pos) k in
  let qe := ivec2_div_int (ivec2_sub edge pos) k in
  2 <= k -> int_range k -> x pos - k < x p < x pos ->
  x q = 0
  /\ slice_oob s q = slice_oob s qe
  /\ slice_get s q = slice_get s qe
  /\ (slice_oob s qe = false ->
      slice_oob s q = false
      /\ (forall b o, buf_start (slice_root s) = Ptr b o ->
          slice_get s q = Ptr b (o + flatten (Ivec2 0 (y q)) (slice_res s))))
  /\ (buf_start (slice_root s) = NULL -> slice_get s q = NULL).
Proof.
  intros edge q qe Hk Hr Hp.
  destruct (local_left_is_origin_column pos p k Hk Hr Hp) as [Hedge Hq0].
  fold edge q qe in Hedge. fold q in Hq0.
  split; [exact Hq0 |].
  split; [rewrite Hedge; reflexivity |].
  split; [rewrite Hedge; reflexivity |].
  split.
  - intros Hin. rewrite <- Hedge in Hin. split; [exact Hin |].
    intros b o Hstart. rewrite (slice_get_in_bounds s q b o Hstart Hin).
    unfold flatten. rewrite Hq0. reflexivity.
  - apply slice_get_dead.
Qed.

(** C9, as the code has it.  With scale [k >= 2], a point less than [k]
    left of a tile's origin has local x-coordinate 0: [oob] and [get] agree
    with the point of the same [y] on the tile's left edge.  When that point
    is in bounds, [oob(p)] is false and [get(p)] is the cell [(0, ly)] of the
    first column, for a backed tile; it is null for an unbacked one. *)
Theorem node_left_of_origin_truncates :
  (forall (T : quadmap.node) (p : ivec2),
      let k := slice_scale (quadmap.node_s T) in
      let pos := quadmap.node_pos T in
      let edge := Ivec2 (x pos) (y p) in
      let q := ivec2_div_int (ivec2_sub p pos) k in
      2 <= k -> int_range k -> x pos - k < x p < x pos ->
      x q = 0
      /\ quadmap.node_oob T p = quadmap.node_oob T edge
      /\ quadmap.node_get T p = quadmap.node_get T edge
      /\ (quadmap.node_oob T edge = false ->
          quadmap.node_oob T p = false
          /\ (forall b o, buf_start (slice_root (quadmap.node_s T)) = Ptr b o ->
              quadmap.node_get T p
              = Ptr b (o + flatten (Ivec2 0 (y q)) (slice_res (quadmap.node_s T)))))
      /\ (buf_start (slice_root (quadmap.node_s T)) = NULL ->
          quadmap.node_get T p = NULL))
  /\ (forall (T : quad.node) (p : ivec2),
      let pos := quad.node_pos T in
      let edge := Ivec2 (x pos) (y p) in
      let q := ivec2_div_int (ivec2_sub p pos) quad.levelsize in
      x p = x pos - 1 ->
      x q = 0
      /\ quad.node_oob T p = quad.node_oob T edge
      /\ quad.node_get T p = quad.node_get T edge
      /\ (quad.node_oob T edge = false ->
          quad.node_oob T p = false
          /\ (forall b o, buf_start (slice_root (quad.node_s T)) = Ptr b o ->
              quad.node_get T p
              = Ptr b (o + flatten (Ivec2 0 (y q)) (slice_res (quad.node_s T)))))
      /\ (buf_start (slice_root (quad.node_s T)) = NULL ->
          quad.node_get T p = NULL)).
Proof.
  split.
  - intros T p k pos edge q Hk Hr Hp.
    exact (slice_left_of_origin (quadmap.node_s T) pos p k Hk Hr Hp).
  - intros T p pos edge q Hp.
    apply (slice_left_of_origin (quad.node_s T) pos p quad.levelsize).
    + unfold quad.levelsize. lia.
    + vm_compute. split; discriminate.
    + unfold quad.levelsize. lia.
Qed.

Lemma node_left_of_origin_truncates_witness :
  quadmap.node_oob examples.coarse_tile (Ivec2 (-1) 2) = false
  /\ quadmap.node_get examples.coarse_tile (Ivec2 (-1) 2) = Ptr 0%nat 1.
Proof.
  pose proof (proj1 node_left_of_origin_truncates examples.coarse_tile (Ivec2 (-1) 2)) as H.
  cbv zeta in H.
  destruct H as (_ & _ & _ & Hin & _).
  - simpl. lia.
  - vm_compute. split; discriminate.
  - simpl. lia.
  - destruct (Hin eq_refl) as [Hoob Hget]. split; [exact Hoob |].
    exact (Hget 0%nat 0 eq_refl).
Defined.

(** C9 does not hold for every tile: on a tile whose allocation failed, the
    point one unit left of the origin is in bounds and [get] is null. *)
Lemma dead_tile_left_of_origin_is_null :
  2 <= slice_scale (quadmap.node_s examples.dead_tile)
  /\ x (quadmap.node_pos examples.dead_tile) - slice_scale (quadmap.node_s examples.dead_tile) < -1
     < x (quadmap.node_pos examples.dead_tile)
  /\ quadmap.node_oob examples.dead_tile (Ivec2 (x (quadmap.node_pos examples.dead_tile)) 0) = false
  /\ quadmap.node_oob examples.dead_tile (Ivec2 (-1) 0) = false
  /\ quadmap.node_get examples.dead_tile (Ivec2 (-1) 0) = NULL.
Proof. simpl. repeat split; try lia; reflexivity. Qed.

(** ** Bounding rectangle of a map *)

Lemma fold_min_absorb (a b : Z) (l : list Z) :
  fold_right Z.min (Z.min a b) l = Z.min b (fold_right Z.min a l).
Proof. induction l as [| c l IH]; simpl; [lia | rewrite IH; lia]. Qed.

Lemma fold_max_absorb (a b : Z) (l : list Z) :
  fold_right Z.max (Z.max a b) l = Z.max b (fold_right Z.max a l).
Proof. induction l as [| c l IH]; simpl; [lia | rewrite IH; lia]. Qed.

Lemma map_add_all_nodes (m : quadmap.map) (ns : list quadmap.node) :
  quadmap.map_nodes (quadmap.map_add_all m ns) = quadmap.map_nodes m ++ ns.
Proof.
  unfold quadmap.map_add_all.
  revert m. induction ns as [| n ns IH]; intros m; simpl.
  - rewrite app_nil_r. reflexivity.
  - rewrite IH. simpl. rewrite <- app_assoc. reflexivity.
Qed.

(** The bounds after a run of [add]: the running minimum and maximum,
    started from the bounds the map had. *)
Lemma map_add_all_bounds (m : quadmap.map) (ns : list quadmap.node) :
  let m' := quadmap.map_add_all m ns in
  let corner n := ivec2_add (quadmap.node_pos n) (quadmap.node_res n) in
  x (quadmap._min m') = fold_right Z.min (x (quadmap._min m)) (map (fun n => x (quadmap.node_pos n)) ns)
  /\ y (quadmap._min m') = fold_right Z.min (y (quadmap._min m)) (map (fun n => y (quadmap.node_pos n)) ns)
  /\ x (quadmap._max m') = fold_right Z.max (x (quadmap._max m)) (map (fun n => x (corner n)) ns)
  /\ y (quadmap._max m') = fold_right Z.max (y (quadmap._max m)) (map (fun n => y (corner n)) ns).
Proof.
  cbv zeta. revert m. induction ns as [| n ns IH]; intros m.
  - simpl. repeat split; reflexivity.
  - unfold quadmap.map_add_all in *. simpl fold_left.
    destruct (IH (quadmap.map_add m n)) as (H1 & H2 & H3 & H4).
    rewrite H1, H2, H3, H4. simpl.
    rewrite !fold_min_absorb, !fold_max_absorb. repeat split; reflexivity.
Qed.

(** C5, as the code has it.  After a run of [add] on a fresh map, the nodes
    are the added tiles in order, [_min] is the componentwise minimum of
    [(0,0)] and the tiles' [pos], and [_max] the componentwise maximum of
    [(0,0)] and the tiles' [pos + res]. *)
Theorem map_bounds_after_adds (ns : list quadmap.node) :
  let m := quadmap.map_add_all quadmap.empty_map ns in
  let corner n := ivec2_add (quadmap.node_pos n) (quadmap.node_res n) in
  quadmap.map_nodes m = ns
  /\ x (quadmap._min m) = fold_right Z.min 0 (map (fun n => x (quadmap.node_pos n)) ns)
  /\ y (quadmap._min m) = fold_right Z.min 0 (map (fun n => y (quadmap.node_pos n)) ns)
  /\ x (quadmap._max m) = fold_right Z.max 0 (map (fun n => x (corner n)) ns)
  /\ y (quadmap._max m) = fold_right Z.max 0 (map (fun n => y (corner n)) ns).
Proof.
  cbv zeta. split.
  - rewrite map_add_all_nodes. reflexivity.
  - exact (map_add_all_bounds quadmap.empty_map ns).
Qed.

(** C5 fails as stated: one tile at [(10,10)] leaves [_min] at [(0,0)], not
    at the tile's position. *)
Lemma map_min_keeps_origin :
  quadmap._min (quadmap.map_add_all quadmap.empty_map [examples.far_tile]) = Ivec2 0 0
  /\ quadmap.node_pos examples.far_tile = Ivec2 10 10
  /\ quadmap._min (quadmap.map_add_all quadmap.empty_map [examples.far_tile])
     <> quadmap.node_pos examples.far_tile.
Proof. repeat split. discriminate. Qed.

(** ** The pool *)

Section PoolFacts.

Context {T : Type}.
Variable indeterminate : T.
Implicit Types (p : pool) (h : heap (T := T)) (n : Z) (b : buf).

Lemma pool_get_heap p n h : snd (pool_get p n h) = h.
Proof.
  unfold pool_get. destruct (pool_free p) as [| front rest]; [reflexivity |].
  destruct (n >? buf_size (pool_root p)); [reflexivity |].
  destruct (buf_size front <? n); reflexivity.
Qed.

Lemma pool_get_refused p n h :
  arena.refused p n -> pool_get p n h = (null_buf, p, h).
Proof.
  unfold arena.refused, pool_get. intros [Hempty | [Hroot | (front & rest & Hfree & Hfront)]].
  - rewrite Hempty. reflexivity.
  - destruct (pool_free p); [reflexivity |].
    destruct (Z.gtb_spec n (buf_size (pool_root p))); [reflexivity | lia].
  - rewrite Hfree.
    destruct (n >? buf_size (pool_root p)); [reflexivity |].
    destruct (Z.ltb_spec (buf_size front) n); [reflexivity | lia].
Qed.

Lemma pool_get_granted p n h front rest :
  pool_free p = front :: rest -> n <= buf_size (pool_root p) -> n <= buf_size front ->
  pool_get p n h =
  (Buf (buf_start front) n,
   Pool (pool_root p) (Buf (ptr_add (buf_start front) n) (wrap_size (buf_size front - n)) :: rest),
   h).
Proof.
  intros Hfree Hroot Hfront. unfold pool_get. rewrite Hfree.
  destruct (Z.gtb_spec n (buf_size (pool_root p))); [lia |].
  destruct (Z.ltb_spec (buf_size front) n); [lia |]. reflexivity.
Qed.

Lemma refused_dec p n : arena.refused p n \/ ~ arena.refused p n.
Proof.
  unfold arena.refused. destruct (pool_free p) as [| front rest].
  - left. left. reflexivity.
  - destruct (Z_gt_le_dec n (buf_size (pool_root p))) as [Hr | Hr]; [left; right; left; exact Hr |].
    destruct (Z_gt_le_dec n (buf_size front)) as [Hf | Hf].
    + left. right. right. exists front, rest. split; [reflexivity | exact Hf].
    + right. intros [Hempty | [Hroot | (f & r & Heq & Hfront)]].
      * discriminate.
      * lia.
      * injection Heq as <- <-. lia.
Qed.

(** Free regions of a reachable pool start at a non-null pointer. *)
Lemma reachable_free_not_null p :
  arena.reachable indeterminate p ->
  Forall (fun b => buf_start b <> NULL) (pool_free p).
Proof.
  induction 1 as [| p n h Hp IH Hn | p n h Hp IH Hn].
  - constructor.
  - simpl. constructor; [discriminate | exact IH].
  - unfold pool_get. destruct (pool_free p) as [| front rest] eqn:Hfree; simpl.
    + rewrite Hfree. constructor.
    + destruct (n >? buf_size (pool_root p)); simpl; [rewrite Hfree; exact IH |].
      destruct (buf_size front <? n); simpl; [rewrite Hfree; exact IH |].
      inversion IH as [| ? ? Hfront Hrest]; subst.
      constructor; [apply ptr_add_not_null; exact Hfront | exact Hrest].
Qed.

Lemma pool_get_null_iff p n h :
  arena.reachable indeterminate p ->
  fst (fst (pool_get p n h)) = null_buf <-> arena.refused p n.
Proof.
  intros Hreach. split.
  - intros Hnull. destruct (refused_dec p n) as [Hyes | Hno]; [exact Hyes | exfalso].
    destruct (pool_free p) as [| front rest] eqn:Hfree.
    { apply Hno. left. exact Hfree. }
    assert (Hroot : n <= buf_size (pool_root p)).
    { destruct (Z_gt_le_dec n (buf_size (pool_root p))); [| assumption].
      exfalso. apply Hno. right. left. assumption. }
    assert (Hfront : n <= buf_size front).
    { destruct (Z_gt_le_dec n (buf_size front)); [| assumption].
      exfalso. apply Hno. right. right. exists front, rest. split; [exact Hfree | assumption]. }
    rewrite (pool_get_granted p n h front rest Hfree Hroot Hfront) in Hnull.
    simpl in Hnull. injection Hnull as Hstart _.
    pose proof (reachable_free_not_null p Hreach) as Hinv.
    rewrite Hfree in Hinv. inversion Hinv; subst. contradiction.
  - intros Hyes. rewrite (pool_get_refused p n h Hyes). reflexivity.
Qed.

End PoolFacts.

(** C2.  On a reachable pool, [get] returns [{NULL, 0}] exactly when there
    is no free region, or the request exceeds the capacity, or it exceeds
    the front free region; a failed call changes neither the pool nor the
    heap.  On a pool of 100 cells, requests of 40, 50 and 20 yield cells
    0..39, cells 40..89 and the null buffer, and 10 cells stay free. *)
Theorem pool_get_fails_exactly_when_refused :
  (forall (T : Type) (indeterminate : T) (p : pool) (n : Z) (h : heap (T := T)),
      arena.reachable indeterminate p -> size_range n ->
      (fst (fst (pool_get p n h)) = null_buf <-> arena.refused p n)
      /\ (fst (fst (pool_get p n h)) = null_buf ->
          snd (fst (pool_get p n h)) = p /\ snd (pool_get p n h) = h))
  /\ (forall (T : Type) (indeterminate : T) (h : heap (T := T)),
      let blk := length h in
      let r0 := new_pool indeterminate 100 h in
      let r1 := pool_get (fst r0) 40 (snd r0) in
      let r2 := pool_get (snd (fst r1)) 50 (snd r1) in
      let r3 := pool_get (snd (fst r2)) 20 (snd r2) in
      fst (fst r1) = Buf (Ptr blk 0) 40
      /\ fst (fst r2) = Buf (Ptr blk 40) 50
      /\ fst (fst r3) = null_buf
      /\ pool_free (snd (fst r3)) = [Buf (Ptr blk 90) 10]).
Proof.
  split.
  - intros T indeterminate p n h Hreach Hn. split.
    + apply (pool_get_null_iff indeterminate). exact Hreach.
    + intros Hnull. apply (pool_get_null_iff indeterminate p n h Hreach) in Hnull.
      rewrite (pool_get_refused p n h Hnull). split; reflexivity.
  - intros T indeterminate h. cbv zeta. repeat split.
Qed.

Lemma pool_get_fails_exactly_when_refused_witness :
  fst (fst (pool_get (fst (new_pool tt 100 [])) 101 (snd (new_pool tt 100 [])))) = null_buf.
Proof.
  apply (proj1 pool_get_fails_exactly_when_refused unit tt
           (fst (new_pool tt 100 [])) 101 (snd (new_pool tt 100 []))).
  - apply (arena.reach_reserve tt empty_pool 100 []).
    + apply arena.reach_empty.
    + unfold size_range, size_max. lia.
  - unfold size_range, size_max. lia.
  - right. left. simpl. lia.
Defined.

(** ** Runs of [get] on a pool with one free region *)

Section Bump.

Context {T : Type}.
Variable indeterminate : T.
Implicit Types (p : pool) (h : heap (T := T)) (n o : Z) (b : buf) (sizes : list Z).

Lemma pool_get_all_heap p sizes h : snd (pool_get_all p sizes h) = h.
Proof.
  revert p h. induction sizes as [| n sizes IH]; intros p h; simpl; [reflexivity |].
  unfold bind. pose proof (pool_get_heap p n h) as Hh.
  destruct (pool_get p n h) as [[b p'] h']. simpl in Hh. subst h'.
  specialize (IH p' h).
  destruct (pool_get_all p' sizes h) as [[bs p''] h'']. exact IH.
Qed.

(** Calls made later do not change what earlier calls returned. *)
Lemma pool_get_all_app p sizes more h :
  let r1 := pool_get_all p sizes h in
  let r2 := pool_get_all (snd (fst r1)) more (snd r1) in
  pool_get_all p (sizes ++ more) h
  = (fst (fst r1) ++ fst (fst r2), snd (fst r2), snd r2).
Proof.
  cbv zeta. revert p h. induction sizes as [| n sizes IH]; intros p h; simpl.
  - unfold ret. simpl. destruct (pool_get_all p more h) as [[bs p'] h']. reflexivity.
  - unfold bind. destruct (pool_get p n h) as [[b p'] h'].
    rewrite IH. destruct (pool_get_all p' sizes h') as [[bs p''] h'']. simpl.
    destruct (pool_get_all p'' more h'') as [[bs2 p3] h3]. reflexivity.
Qed.

Lemma total_nonneg sizes : Forall (fun n => 0 <= n) sizes -> 0 <= arena.total sizes.
Proof. induction 1; simpl; lia. Qed.

(** While the requests fit in the front free region, every [get] is granted
    and the buffers are handed out back to back. *)
Lemma pool_get_all_bump sizes root blk o f rest h :
  Forall (fun n => 0 <= n) sizes ->
  f <= buf_size root -> f <= size_max -> arena.total sizes <= f ->
  pool_get_all (Pool root (Buf (Ptr blk o) f :: rest)) sizes h
  = (arena.layout blk o sizes,
     Pool root (Buf (Ptr blk (o + arena.total sizes)) (f - arena.total sizes) :: rest),
     h).
Proof.
  intros Hpos. revert o f. induction Hpos as [| n sizes Hn Hpos IH]; intros o f Hroot Hmax Hsum.
  - simpl. unfold ret. rewrite Z.add_0_r, Z.sub_0_r. reflexivity.
  - simpl in Hsum |- *. pose proof (total_nonneg sizes Hpos) as Htot.
    unfold bind.
    rewrite (pool_get_granted (Pool root (Buf (Ptr blk o) f :: rest)) n h
               (Buf (Ptr blk o) f) rest eq_refl) by (simpl; lia).
    simpl. rewrite wrap_size_id by (unfold size_range; lia).
    rewrite IH by lia. unfold ret.
    replace (o + n + arena.total sizes) with (o + (n + arena.total sizes)) by lia.
    replace (f - n - arena.total sizes) with (f - (n + arena.total sizes)) by lia.
    reflexivity.
Qed.

(** *** The back-to-back layout *)

Lemma layout_length blk o sizes : length (arena.layout blk o sizes) = length sizes.
Proof. revert o. induction sizes as [| n sizes IH]; intros o; simpl; [| rewrite IH]; reflexivity. Qed.

Lemma layout_lookup blk o sizes (i : nat) :
  arena.layout blk o sizes !! i
  = (fun n => Buf (Ptr blk (o + arena.total (take i sizes))) n) <$> sizes !! i.
Proof.
  revert o i. induction sizes as [| n sizes IH]; intros o i.
  - destruct i; reflexivity.
  - destruct i as [| i]; simpl.
    + rewrite Z.add_0_r. reflexivity.
    + rewrite IH. destruct (sizes !! i); simpl; [| reflexivity].
      do 3 f_equal. lia.
Qed.

Lemma total_take_mono sizes (i j : nat) :
  Forall (fun n => 0 <= n) sizes -> (i <= j)%nat ->
  arena.total (take i sizes) <= arena.total (take j sizes).
Proof.
  intros Hpos. revert i j. induction Hpos as [| n sizes Hn Hpos IH]; intros i j Hij.
  - rewrite !take_nil. lia.
  - destruct i as [| i]; destruct j as [| j]; simpl; try lia.
    + assert (Hj : Forall (fun n => 0 <= n) (take j sizes)) by (apply Forall_take; exact Hpos).
      pose proof (total_nonneg (take j sizes) Hj). lia.
    + specialize (IH i j). lia.
Qed.

Lemma total_take_succ sizes (i : nat) n :
  sizes !! i = Some n ->
  arena.total (take (S i) sizes) = arena.total (take i sizes) + n.
Proof.
  revert i. induction sizes as [| m sizes IH]; intros i Hi; [destruct i; discriminate |].
  destruct i as [| i]; simpl in *.
  - injection Hi as ->. lia.
  - rewrite (IH i Hi). lia.
Qed.

Lemma layout_covers_inside blk o sizes b c :
  Forall (fun n => 0 <= n) sizes ->
  b ∈ arena.layout blk o sizes -> arena.covers b blk c ->
  o <= c < o + arena.total sizes.
Proof.
  intros Hpos. revert o. induction Hpos as [| n sizes Hn Hpos IH]; intros o Hin Hcov; simpl in *.
  - inversion Hin.
  - pose proof (total_nonneg sizes Hpos) as Htot.
    apply elem_of_cons in Hin as [-> | Hin].
    + destruct Hcov as (s & Hs & Hc). simpl in *. injection Hs as <-. lia.
    + specialize (IH (o + n) Hin Hcov). lia.
Qed.

Lemma layout_covers_all blk o sizes c :
  o <= c < o + arena.total sizes ->
  exists b, b ∈ arena.layout blk o sizes /\ arena.covers b blk c.
Proof.
  revert o. induction sizes as [| n sizes IH]; intros o Hc; simpl in *; [lia |].
  destruct (Z_lt_le_dec c (o + n)) as [Hfirst | Hlater].
  - exists (Buf (Ptr blk o) n). split; [apply elem_of_cons; left; reflexivity |].
    exists o. simpl. split; [reflexivity | lia].
  - destruct (IH (o + n)) as (b & Hin & Hcov); [lia |].
    exists b. split; [apply elem_of_cons; right; exact Hin | exact Hcov].
Qed.

Lemma layout_disjoint blk o sizes (i j : nat) bi bj c :
  Forall (fun n => 0 <= n) sizes -> i <> j ->
  arena.layout blk o sizes !! i = Some bi ->
  arena.layout blk o sizes !! j = Some bj ->
  ~ (arena.covers bi blk c /\ arena.covers bj blk c).
Proof.
  intros Hpos Hij Hi Hj [(si & Hsi & Hci) (sj & Hsj & Hcj)].
  rewrite layout_lookup in Hi, Hj.
  destruct (sizes !! i) as [ni |] eqn:Hni; [| discriminate].
  destruct (sizes !! j) as [nj |] eqn:Hnj; [| discriminate].
  simpl in Hi, Hj. injection Hi as <-. injection Hj as <-. simpl in *.
  injection Hsi as <-. injection Hsj as <-.
  pose proof (total_take_succ sizes i ni Hni) as Hsi.
  pose proof (total_take_succ sizes j nj Hnj) as Hsj.
  destruct (Nat.lt_ge_cases i j) as [Hlt | Hge].
  - pose proof (total_take_mono sizes (S i) j Hpos ltac:(lia)). lia.
  - pose proof (total_take_mono sizes (S j) i Hpos ltac:(lia)). lia.
Qed.

End Bump.

Lemma layout_granted (blk : block) (o : Z) (sizes : list Z) :
  Forall2 (fun n b => buf_size b = n /\ exists s, buf_start b = Ptr blk s)
          sizes (arena.layout blk o sizes).
Proof.
  revert o. induction sizes as [| n sizes IH]; intros o; simpl; constructor.
  - split; [reflexivity | exists o; reflexivity].
  - apply IH.
Qed.

(** The cells behind a back-to-back buffer that ends inside a fresh array
    are as many as were requested. *)
Lemma fresh_array_cells {T : Type} (indeterminate : T) (h : heap (T := T)) (C o n : Z) :
  0 <= o -> 0 <= n -> o + n <= C ->
  exists cells,
    buf_cells (snd (new_pool indeterminate C h)) (Buf (Ptr (length h) o) n) = Some cells
    /\ length cells = Z.to_nat n.
Proof.
  intros Ho Hn HC. unfold buf_cells, heap in *. simpl.
  rewrite list_lookup_middle by reflexivity.
  eexists. split; [reflexivity |].
  rewrite length_take, length_drop, length_replicate. lia.
Qed.

(** C1.  On a pool built with capacity [C], a run of [get] calls whose
    running sum stays within [C] is granted call by call: each buffer is
    non-null, has the requested length and is backed by that many cells; the
    buffers lie back to back from offset 0, no two share a cell, together
    with the remaining free region they cover exactly the cells [0, C), and
    further calls change neither the buffers already returned nor the heap. *)
Theorem arena_allocations_tile_the_block :
  forall (T : Type) (indeterminate : T) (C : Z) (sizes : list Z) (h : heap (T := T)),
    size_range C -> Forall size_range sizes ->
    (forall k : nat, arena.total (take k sizes) <= C) ->
    let blk := length h in
    let r0 := new_pool indeterminate C h in
    let r := pool_get_all (fst r0) sizes (snd r0) in
    let bufs := fst (fst r) in
    Forall2 (fun n b => buf_size b = n /\ exists o, buf_start b = Ptr blk o) sizes bufs
    /\ (forall b, b ∈ bufs ->
        exists cells, buf_cells (snd r0) b = Some cells
                      /\ length cells = Z.to_nat (buf_size b))
    /\ (forall (i : nat) b, bufs !! i = Some b ->
        buf_start b = Ptr blk (arena.total (take i sizes)))
    /\ (forall (i j : nat) bi bj c, i <> j -> bufs !! i = Some bi -> bufs !! j = Some bj ->
        ~ (arena.covers bi blk c /\ arena.covers bj blk c))
    /\ (exists free,
        pool_free (snd (fst r)) = [free]
        /\ buf_start free = Ptr blk (arena.total sizes)
        /\ buf_size free = C - arena.total sizes
        /\ (forall c, 0 <= c < C <->
              (exists b, b ∈ bufs /\ arena.covers b blk c) \/ arena.covers free blk c)
        /\ (forall b c, b ∈ bufs -> ~ (arena.covers b blk c /\ arena.covers free blk c)))
    /\ (forall more : list Z,
        let r' := pool_get_all (fst r0) (sizes ++ more) (snd r0) in
        take (length sizes) (fst (fst r')) = bufs
        /\ snd r' = snd r0
        /\ (forall b, b ∈ bufs -> buf_cells (snd r') b = buf_cells (snd r0) b)).
Proof.
  intros T indeterminate C sizes h HC Hsizes Hrun blk r0 r bufs.
  assert (Hpos : Forall (fun n => 0 <= n) sizes).
  { eapply Forall_impl; [exact Hsizes |]. intros n [Hn _]. exact Hn. }
  assert (Htotal : arena.total sizes <= C).
  { specialize (Hrun (length sizes)). rewrite take_ge in Hrun by lia. exact Hrun. }
  pose proof (total_nonneg sizes Hpos) as Htot0.
  assert (Hr : r = (arena.layout blk 0 sizes,
                    Pool (Buf (Ptr blk 0) C)
                         [Buf (Ptr blk (0 + arena.total sizes)) (C - arena.total sizes)],
                    snd r0)).
  { subst r r0. simpl.
    apply pool_get_all_bump; simpl; try assumption; try lia.
    destruct HC as [_ HC]. exact HC. }
  assert (Hbufs : bufs = arena.layout blk 0 sizes) by (subst bufs; rewrite Hr; reflexivity).
  split; [rewrite Hbufs; apply layout_granted |].
  split.
  { intros b Hin. rewrite Hbufs in Hin.
    apply list_elem_of_lookup in Hin as [i Hi].
    rewrite layout_lookup in Hi.
    destruct (sizes !! i) as [n |] eqn:Hn; [| discriminate].
    simpl in Hi. injection Hi as <-. simpl.
    assert (Hsucc := total_take_succ sizes i n Hn).
    assert (Hle := Hrun (S i)).
    assert (Hi0 := total_nonneg (take i sizes) (Forall_take _ _ _ Hpos)).
    assert (Hn0 : 0 <= n).
    { apply (proj1 (Forall_lookup _ _) Hpos i n Hn). }
    apply fresh_array_cells; lia. }
  split.
  { intros i b Hi. rewrite Hbufs, layout_lookup in Hi.
    destruct (sizes !! i) as [n |]; [| discriminate].
    simpl in Hi. injection Hi as <-. reflexivity. }
  split.
  { intros i j bi bj c Hij Hi Hj. rewrite Hbufs in Hi, Hj.
    exact (layout_disjoint blk 0 sizes i j bi bj c Hpos Hij Hi Hj). }
  split.
  { exists (Buf (Ptr blk (arena.total sizes)) (C - arena.total sizes)).
    rewrite Hr. simpl. split; [reflexivity |]. split; [reflexivity |]. split; [reflexivity |].
    split.
    - intros c. split.
      + intros Hc. destruct (Z_lt_le_dec c (arena.total sizes)) as [Hused | Hfree].
        * left. rewrite Hbufs. apply layout_covers_all. lia.
        * right. eexists. simpl. split; [reflexivity | lia].
      + intros [(b & Hin & Hcov) | (s & Hs & Hc)].
        * rewrite Hbufs in Hin.
          pose proof (layout_covers_inside blk 0 sizes b c Hpos Hin Hcov). lia.
        * simpl in *. injection Hs as <-. lia.
    - intros b c Hin [Hcov (s & Hs & Hc)]. rewrite Hbufs in Hin.
      pose proof (layout_covers_inside blk 0 sizes b c Hpos Hin Hcov).
      simpl in *. injection Hs as <-. lia. }
  intros more r'.
  assert (Hheap : snd r' = snd r0) by apply pool_get_all_heap.
  split; [| split; [exact Hheap | intros b _; rewrite Hheap; reflexivity]].
  subst r'. rewrite pool_get_all_app.
  transitivity (take (length sizes)
                  (bufs ++ fst (fst (pool_get_all (snd (fst r)) more (snd r)))));
    [reflexivity |].
  apply take_app_length'. rewrite Hbufs, layout_length. reflexivity.
Qed.

Lemma arena_allocations_tile_the_block_witness :
  Forall2 (fun n b => buf_size b = n /\ exists o, buf_start b = Ptr 0%nat o)
          [40; 50; 10]
          (fst (fst (pool_get_all (fst (new_pool tt 100 [])) [40; 50; 10]
                                  (snd (new_pool tt 100 []))))).
Proof.
  refine (proj1 (arena_allocations_tile_the_block unit tt 100 [40; 50; 10] [] _ _ _)).
  - unfold size_range, size_max. lia.
  - unfold size_range, size_max. repeat constructor; lia.
  - intros k. do 3 (destruct k as [| k]; [vm_compute; discriminate |]).
    rewrite take_ge by (simpl; lia). vm_compute. discriminate.
Defined.

(** ** Resolving a world point to its tile *)

Lemma map_oob_true (m : quadmap.map) (p : ivec2) :
  quadmap.map_oob m p = true <->
  x p < x (quadmap._min m) \/ y p < y (quadmap._min m)
  \/ x p >= x (quadmap._max m) \/ y p >= y (quadmap._max m).
Proof.
  unfold quadmap.map_oob.
  destruct (Z.ltb_spec (x p) (x (quadmap._min m)));
    destruct (Z.ltb_spec (y p) (y (quadmap._min m)));
    destruct (Z.geb_spec (x p) (x (quadmap._max m)));
    destruct (Z.geb_spec (y p) (y (quadmap._max m)));
    split; intros Hgoal; try reflexivity; try discriminate; lia.
Qed.

Lemma quad_map_oob_true (p : ivec2) :
  quad.map_oob p = true <->
  x p < 0 \/ y p < 0 \/ x p >= quad.size \/ y p >= quad.size.
Proof.
  unfold quad.map_oob.
  destruct (Z.ltb_spec (x p) 0); destruct (Z.ltb_spec (y p) 0);
    destruct (Z.geb_spec (x p) quad.size); destruct (Z.geb_spec (y p) quad.size);
    split; intros Hgoal; try reflexivity; try discriminate; lia.
Qed.

(** The coordinate [a] of a point in column (or row) [i] of the lattice
    divides to [i]. *)
Lemma lattice_quotient (W N i a : Z) :
  0 < W -> N * W <= int_max -> 0 <= i < N -> i * W <= a < i * W + W ->
  int_div a W = i /\ Z.quot a W = i.
Proof.
  intros HW HN Hi Ha.
  assert (Hrange : int_range a) by (unfold int_range, int_min, int_max in *; nia).
  assert (Hq : a / W = i) by (symmetry; apply (Z.div_unique a W i (a - i * W)); lia).
  split.
  - rewrite int_div_nonneg; [exact Hq | nia | exact Hrange | exact HW].
  - rewrite Z.quot_div_nonneg by nia. exact Hq.
Qed.

(** Row-major flattening of the quotient, without overflow. *)
Lemma lattice_index (W N : Z) (p : ivec2) (i j : Z) :
  0 < W -> N * W <= int_max -> N * N <= int_max ->
  0 <= i < N -> 0 <= j < N ->
  grid.in_footprint (Ivec2 (i * W) (j * W)) (Ivec2 W W) p ->
  int_add (int_mul (x (ivec2_div p (Ivec2 W W))) N) (y (ivec2_div p (Ivec2 W W)))
  = i * N + j
  /\ i * N + j = Z.quot (x p) W * N + Z.quot (y p) W.
Proof.
  intros HW HNW HNN Hi Hj [Hx Hy]. simpl in Hx, Hy.
  destruct (lattice_quotient W N i (x p) HW HNW Hi Hx) as [Hdx Hqx].
  destruct (lattice_quotient W N j (y p) HW HNW Hj Hy) as [Hdy Hqy].
  unfold ivec2_div. simpl. rewrite Hdx, Hdy, Hqx, Hqy. split; [| reflexivity].
  unfold int_add, int_mul.
  rewrite (wrap_int_id (i * N)) by (unfold int_range, int_min, int_max in *; nia).
  apply wrap_int_id. unfold int_range, int_min, int_max in *. nia.
Qed.

Lemma fold_min_le_init (a : Z) (l : list Z) : fold_right Z.min a l <= a.
Proof. induction l as [| c l IH]; simpl; lia. Qed.

Lemma fold_max_ge_elem {A : Type} (f : A -> Z) (a : Z) (e : A) (l : list A) :
  e ∈ l -> f e <= fold_right Z.max a (map f l).
Proof.
  induction l as [| c l IH]; intros Hin; [inversion Hin |].
  apply elem_of_cons in Hin as [-> | Hin]; simpl; [lia |].
  specialize (IH Hin). lia.
Qed.

(** Every stored tile of a uniform grid is tile [(i, j)] for its index. *)
Lemma uniform_lookup (W N : Z) (m : quadmap.map) (k : nat) (n : quadmap.node) :
  grid.uniform W N m -> quadmap.map_nodes m !! k = Some n ->
  exists i j, 0 <= i < N /\ 0 <= j < N /\ Z.of_nat k = i * N + j
              /\ quadmap.node_pos n = Ivec2 (i * W) (j * W)
              /\ quadmap.node_res n = Ivec2 W W.
Proof.
  intros (HW & HN & HNW & HNN & Hadd & Hlen & Htiles) Hk.
  apply lookup_lt_Some in Hk as Hlt. rewrite Hlen in Hlt.
  pose proof (Z.div_mod (Z.of_nat k) N ltac:(lia)) as Hdm.
  pose proof (Z.mod_pos_bound (Z.of_nat k) N HN) as Hmod.
  assert (Hdiv : 0 <= Z.of_nat k / N < N).
  { split; [apply Z.div_pos; lia | apply Z.div_lt_upper_bound; lia]. }
  exists (Z.of_nat k / N), (Z.of_nat k mod N).
  destruct (Htiles _ _ Hdiv Hmod) as (n' & Hn' & Hpos & Hres).
  replace (Z.to_nat (Z.of_nat k / N * N + Z.of_nat k mod N)) with k in Hn' by lia.
  rewrite Hk in Hn'. injection Hn' as <-.
  repeat split; try lia; assumption.
Qed.

(** Inside a tile of a uniform grid a point is within the map's bounds. *)
Lemma uniform_in_bounds (W N : Z) (m : quadmap.map) (k : nat) (n : quadmap.node) (p : ivec2) :
  grid.uniform W N m -> quadmap.map_nodes m !! k = Some n ->
  grid.in_footprint (quadmap.node_pos n) (quadmap.node_res n) p ->
  quadmap.map_oob m p = false.
Proof.
  intros Hu Hk Hin.
  destruct (uniform_lookup W N m k n Hu Hk) as (i & j & Hi & Hj & _ & Hpos & Hres).
  destruct Hu as (HW & HN & HNW & HNN & Hadd & _ & _).
  destruct (map_add_all_bounds quadmap.empty_map (quadmap.map_nodes m))
    as (Hminx & Hminy & Hmaxx & Hmaxy).
  rewrite <- Hadd in Hminx, Hminy, Hmaxx, Hmaxy.
  assert (Hcorner : ivec2_add (quadmap.node_pos n) (quadmap.node_res n)
                    = Ivec2 (i * W + W) (j * W + W)).
  { rewrite Hpos, Hres. unfold ivec2_add, int_add. simpl.
    rewrite !wrap_int_id by (unfold int_range, int_min, int_max in *; nia).
    reflexivity. }
  assert (Hn : n ∈ quadmap.map_nodes m) by (apply list_elem_of_lookup; eauto).
  pose proof (fold_min_le_init 0 (map (fun n => x (quadmap.node_pos n)) (quadmap.map_nodes m))).
  pose proof (fold_min_le_init 0 (map (fun n => y (quadmap.node_pos n)) (quadmap.map_nodes m))).
  pose proof (fold_max_ge_elem
                (fun n => x (ivec2_add (quadmap.node_pos n) (quadmap.node_res n))) 0 n _ Hn) as Hgx.
  pose proof (fold_max_ge_elem
                (fun n => y (ivec2_add (quadmap.node_pos n) (quadmap.node_res n))) 0 n _ Hn) as Hgy.
  cbv beta in Hgx, Hgy. rewrite Hcorner in Hgx, Hgy.
  simpl in Hgx, Hgy, Hminx, Hminy, Hmaxx, Hmaxy.
  destruct Hin as [Hx Hy]. rewrite Hpos, Hres in Hx, Hy. simpl in Hx, Hy.
  destruct (quadmap.map_oob m p) eqn:Hoob; [| reflexivity].
  apply map_oob_true in Hoob. nia.
Qed.

Lemma map_get_uniform (W N : Z) (m : quadmap.map) (k : nat) (n : quadmap.node) (p : ivec2) :
  grid.uniform W N m -> quadmap.map_nodes m !! k = Some n ->
  grid.in_footprint (quadmap.node_pos n) (quadmap.node_res n) p ->
  quadmap.map_get W N m p = NodeAt (Z.of_nat k)
  /\ Z.of_nat k = Z.quot (x p) W * N + Z.quot (y p) W.
Proof.
  intros Hu Hk Hin.
  pose proof (uniform_in_bounds W N m k n p Hu Hk Hin) as Hoob.
  destruct (uniform_lookup W N m k n Hu Hk) as (i & j & Hi & Hj & Hind & Hpos & Hres).
  destruct Hu as (HW & HN & HNW & HNN & _).
  rewrite Hpos, Hres in Hin.
  destruct (lattice_index W N p i j HW HNW HNN Hi Hj Hin) as [Hget Hquot].
  unfold quadmap.map_get. rewrite Hoob. cbv zeta. rewrite Hget, Hind.
  split; [reflexivity | exact Hquot].
Qed.

Lemma quad_tile_origin (i j : Z) :
  0 <= i < quad.mapsize -> 0 <= j < quad.mapsize ->
  ivec2_mul quad.tileres (Ivec2 i j) = Ivec2 (i * 512) (j * 512).
Proof.
  unfold quad.mapsize. intros Hi Hj.
  assert (Hi' : i = 0 \/ i = 1) by lia. assert (Hj' : j = 0 \/ j = 1) by lia.
  destruct Hi' as [-> | ->]; destruct Hj' as [-> | ->]; reflexivity.
Qed.

Lemma quad_map_get_tile (i j : Z) (p : ivec2) :
  0 <= i < quad.mapsize -> 0 <= j < quad.mapsize ->
  grid.in_footprint (ivec2_mul quad.tileres (Ivec2 i j)) quad.tileres p ->
  quad.map_get p = NodeAt (i * quad.mapsize + j)
  /\ i * quad.mapsize + j = Z.quot (x p) quad.tilesize * quad.mapsize + Z.quot (y p) quad.tilesize.
Proof.
  intros Hi Hj Hin. rewrite (quad_tile_origin i j Hi Hj) in Hin.
  change quad.tileres with (Ivec2 512 512) in *. change quad.tilesize with 512.
  unfold quad.mapsize in *.
  assert (Hoob : quad.map_oob p = false).
  { destruct (quad.map_oob p) eqn:E; [| reflexivity].
    apply quad_map_oob_true in E. change quad.size with 1024 in E.
    destruct Hin as [Hx Hy]. simpl in Hx, Hy. lia. }
  destruct (lattice_index 512 2 p i j) as [Hget Hquot];
    try assumption; try (unfold int_max; lia).
  unfold quad.map_get. rewrite Hoob. cbv zeta.
  change quad.tileres with (Ivec2 512 512). unfold quad.mapsize.
  rewrite Hget. split; [reflexivity | exact Hquot].
Qed.

(** C4, as the code has it.  [map::get] is null for every point outside
    [[_min, _max)]; in a uniform grid that is anchored at the origin and
    stored row-major, a point in the footprint of the tile stored at index
    [k] resolves to the address of element [k], which is the row-major
    index of the quotient of the point by the tile extent, and dereferencing
    it reads that tile.  The fixed 2 x 2 map of [quad] behaves the same with
    its constants. *)
Theorem map_get_resolves_owning_tile :
  (forall (WSIZE TILES : Z) (m : quadmap.map) (p : ivec2),
      x p < x (quadmap._min m) \/ y p < y (quadmap._min m)
      \/ x p >= x (quadmap._max m) \/ y p >= y (quadmap._max m) ->
      quadmap.map_get WSIZE TILES m p = NullNode)
  /\ (forall (WSIZE TILES : Z) (m : quadmap.map) (k : nat) (n : quadmap.node) (p : ivec2),
      grid.uniform WSIZE TILES m ->
      quadmap.map_nodes m !! k = Some n ->
      grid.in_footprint (quadmap.node_pos n) (quadmap.node_res n) p ->
      quadmap.map_get WSIZE TILES m p = NodeAt (Z.of_nat k)
      /\ Z.of_nat k = Z.quot (x p) WSIZE * TILES + Z.quot (y p) WSIZE
      /\ quadmap.map_deref m (quadmap.map_get WSIZE TILES m p) = Some n)
  /\ (forall p : ivec2,
      x p < 0 \/ y p < 0 \/ x p >= quad.size \/ y p >= quad.size ->
      quad.map_get p = NullNode)
  /\ (forall (i j : Z) (p : ivec2),
      0 <= i < quad.mapsize -> 0 <= j < quad.mapsize ->
      grid.in_footprint (ivec2_mul quad.tileres (Ivec2 i j)) quad.tileres p ->
      quad.map_get p = NodeAt (i * quad.mapsize + j)
      /\ i * quad.mapsize + j
         = Z.quot (x p) quad.tilesize * quad.mapsize + Z.quot (y p) quad.tilesize).
Proof.
  split; [| split; [| split]].
  - intros W N m p Hout. apply map_oob_true in Hout.
    unfold quadmap.map_get. rewrite Hout. reflexivity.
  - intros W N m k n p Hu Hk Hin.
    destruct (map_get_uniform W N m k n p Hu Hk Hin) as [Hget Hquot].
    split; [exact Hget |]. split; [exact Hquot |].
    rewrite Hget. unfold quadmap.map_deref.
    destruct (Z.ltb_spec (Z.of_nat k) 0); [lia |].
    rewrite Nat2Z.id. exact Hk.
  - intros p Hout. apply quad_map_oob_true in Hout.
    unfold quad.map_get. rewrite Hout. reflexivity.
  - exact quad_map_get_tile.
Qed.

Lemma map_get_resolves_owning_tile_witness :
  quadmap.map_get 4 2 examples.small_grid (Ivec2 5 2) = NodeAt 2
  /\ quadmap.map_deref examples.small_grid (quadmap.map_get 4 2 examples.small_grid (Ivec2 5 2))
     = Some (examples.small_tile 1 0).
Proof.
  destruct (proj1 (proj2 map_get_resolves_owning_tile) 4 2 examples.small_grid 2%nat
              (examples.small_tile 1 0) (Ivec2 5 2)) as (Hget & _ & Hderef).
  - unfold grid.uniform. repeat split; try (unfold int_max; lia).
    intros i j Hi Hj.
    assert (Hi' : i = 0 \/ i = 1) by lia. assert (Hj' : j = 0 \/ j = 1) by lia.
    destruct Hi' as [-> | ->]; destruct Hj' as [-> | ->];
      eexists; (split; [reflexivity | split; reflexivity]).
  - reflexivity.
  - unfold grid.in_footprint. simpl. lia.
  - split; [exact Hget | exact Hderef].
Defined.

(** C4 fails as stated: equal-sized tiles on a lattice with a fixed
    tile-count per axis do not fix what [get] relies on.  With the four
    tiles of the 2 x 2 grid added column by column, [(5,2)] lies in the
    footprint of the tile at [(4,0)] alone, yet [get] returns element 2, the
    tile at [(0,4)].  With the lattice starting at [(4,4)], [(5,5)] lies in
    the tile at [(4,4)] alone, yet [get] returns element 3, the tile at
    [(8,8)], and for [(11,11)] it returns the address of element 6 of a
    vector of four. *)
Lemma map_get_misses_the_owner_on_other_lattices :
  (grid.on_lattice 4 2 examples.column_first_grid
   /\ quadmap.map_nodes examples.column_first_grid !! 1%nat = Some (examples.small_tile 1 0)
   /\ grid.in_footprint (quadmap.node_pos (examples.small_tile 1 0))
                         (quadmap.node_res (examples.small_tile 1 0)) (Ivec2 5 2)
   /\ (forall (k : nat) (n : quadmap.node),
         quadmap.map_nodes examples.column_first_grid !! k = Some n ->
         grid.in_footprint (quadmap.node_pos n) (quadmap.node_res n) (Ivec2 5 2) ->
         k = 1%nat)
   /\ quadmap.map_get 4 2 examples.column_first_grid (Ivec2 5 2) = NodeAt 2
   /\ quadmap.map_deref examples.column_first_grid (NodeAt 2) = Some (examples.small_tile 0 1)
   /\ ~ grid.in_footprint (quadmap.node_pos (examples.small_tile 0 1))
                           (quadmap.node_res (examples.small_tile 0 1)) (Ivec2 5 2))
  /\ (grid.on_lattice 4 2 examples.shifted_grid
      /\ quadmap.map_nodes examples.shifted_grid !! 0%nat = Some (examples.shifted_tile 0 0)
      /\ grid.in_footprint (quadmap.node_pos (examples.shifted_tile 0 0))
                            (quadmap.node_res (examples.shifted_tile 0 0)) (Ivec2 5 5)
      /\ (forall (k : nat) (n : quadmap.node),
            quadmap.map_nodes examples.shifted_grid !! k = Some n ->
            grid.in_footprint (quadmap.node_pos n) (quadmap.node_res n) (Ivec2 5 5) ->
            k = 0%nat)
      /\ quadmap.map_get 4 2 examples.shifted_grid (Ivec2 5 5) = NodeAt 3
      /\ quadmap.map_deref examples.shifted_grid (NodeAt 3) = Some (examples.shifted_tile 1 1)
      /\ ~ grid.in_footprint (quadmap.node_pos (examples.shifted_tile 1 1))
                              (quadmap.node_res (examples.shifted_tile 1 1)) (Ivec2 5 5)
      /\ grid.in_footprint (quadmap.node_pos (examples.shifted_tile 1 1))
                            (quadmap.node_res (examples.shifted_tile 1 1)) (Ivec2 11 11)
      /\ quadmap.map_get 4 2 examples.shifted_grid (Ivec2 11 11) = NodeAt 6
      /\ quadmap.map_deref examples.shifted_grid (NodeAt 6) = None).
Proof.
  assert (Hcases : forall i j, 0 <= i < 2 -> 0 <= j < 2 ->
             (i = 0 \/ i = 1) /\ (j = 0 \/ j = 1)) by (intros; lia).
  split.
  - split.
    { unfold grid.on_lattice. repeat split; try (unfold int_max; lia).
      exists (Ivec2 0 0). intros i j Hi Hj.
      destruct (Hcases i j Hi Hj) as [[-> | ->] [-> | ->]].
      - exists 0%nat. eexists. repeat split; reflexivity.
      - exists 2%nat. eexists. repeat split; reflexivity.
      - exists 1%nat. eexists. repeat split; reflexivity.
      - exists 3%nat. eexists. repeat split; reflexivity. }
    split; [reflexivity |].
    split; [unfold grid.in_footprint; simpl; lia |].
    split.
    { intros k n Hk [Hx Hy].
      do 4 (destruct k as [| k];
            [injection Hk as <-; simpl in Hx, Hy; try reflexivity; lia |]).
      discriminate Hk. }
    split; [reflexivity |]. split; [reflexivity |].
    intros [Hx Hy]. simpl in Hx, Hy. lia.
  - split.
    { unfold grid.on_lattice. repeat split; try (unfold int_max; lia).
      exists (Ivec2 4 4). intros i j Hi Hj.
      destruct (Hcases i j Hi Hj) as [[-> | ->] [-> | ->]].
      - exists 0%nat. eexists. repeat split; reflexivity.
      - exists 1%nat. eexists. repeat split; reflexivity.
      - exists 2%nat. eexists. repeat split; reflexivity.
      - exists 3%nat. eexists. repeat split; reflexivity. }
    split; [reflexivity |].
    split; [unfold grid.in_footprint; simpl; lia |].
    split.
    { intros k n Hk [Hx Hy].
      do 4 (destruct k as [| k];
            [injection Hk as <-; simpl in Hx, Hy; try reflexivity; lia |]).
      discriminate Hk. }
    split; [reflexivity |]. split; [reflexivity |].
    split; [intros [Hx Hy]; simpl in Hx, Hy; lia |].
    split; [unfold grid.in_footprint; simpl; lia |].
    split; reflexivity.
Qed.

(** ** Setting up the fixed map *)

Section InitFacts.

Context {T : Type}.
Variable Vertexpool : Type.
Variable vertexpool_section : Z -> Vertexpool -> ptr * Vertexpool.
Variable indexnode : Z -> Vertexpool -> quad.node -> Vertexpool.

(** One round of [init] writes tile [(i, j)] at index [2 i + j], whatever
    [get] returned for it. *)
Lemma init_step_eq (i j : Z) (l : list quad.node) (vp vp1 : Vertexpool)
      (cp cp' : pool) (h : heap (T := T)) (b : buf) (vertex : ptr) :
  0 <= i < 2 -> 0 <= j < 2 -> length l = 4%nat ->
  vertexpool_section 65536 vp = (vertex, vp1) ->
  pool_get cp 65536 h = (b, cp', h) ->
  exists vp',
    quad.init_step Vertexpool vertexpool_section indexnode i j (quad.Map l, vp, cp) h
    = (quad.Map (<[Z.to_nat (i * 2 + j) :=
                    quad.Node (Ivec2 (i * 512) (j * 512)) (Ivec2 512 512) vertex
                              (Slice b (Ivec2 256 256) 1)]> l),
       vp', cp', h).
Proof.
  intros Hi Hj Hlen Hsec Hget.
  assert (Hi' : i = 0 \/ i = 1) by lia. assert (Hj' : j = 0 \/ j = 1) by lia.
  do 4 (destruct l as [| ? l]; [discriminate |]). destruct l; [| discriminate].
  unfold quad.init_step.
  change (int_div quad.tilearea quad.levelarea) with 65536.
  rewrite Hsec. unfold bind. rewrite Hget. unfold ret.
  destruct Hi' as [-> | ->]; destruct Hj' as [-> | ->]; eexists; reflexivity.
Qed.

Ltac init_round S E :=
  lazymatch goal with
  | |- context [quad.init_step _ _ _ ?i ?j (quad.Map ?l, ?vp, ?cp) ?h] =>
      let vq := fresh "vq" in
      let Hs := fresh "Hstep" in
      destruct (init_step_eq i j l vp _ cp _ h _ _ ltac:(lia) ltac:(lia) eq_refl S E)
        as [vq Hs];
      rewrite Hs; clear Hs;
      cbn [Z.to_nat Z.mul Z.add Pos.mul Pos.add Pos.to_nat Pos.iter_op Nat.add list_insert]
  end.

Lemma init_nodes (vp : Vertexpool) (cp : pool) (h : heap (T := T)) :
  exists v0 v1 v2 v3 b0 b1 b2 b3,
    fst (fst (pool_get_all cp (replicate 4 65536) h)) = [b0; b1; b2; b3]
    /\ quad.map_nodes
         (fst (fst (fst (quad.init Vertexpool vertexpool_section indexnode
                                   quad.new_map vp cp h))))
       = [quad.Node (Ivec2 0 0) (Ivec2 512 512) v0 (Slice b0 (Ivec2 256 256) 1);
          quad.Node (Ivec2 0 512) (Ivec2 512 512) v1 (Slice b1 (Ivec2 256 256) 1);
          quad.Node (Ivec2 512 0) (Ivec2 512 512) v2 (Slice b2 (Ivec2 256 256) 1);
          quad.Node (Ivec2 512 512) (Ivec2 512 512) v3 (Slice b3 (Ivec2 256 256) 1)].
Proof.
  unfold quad.init. change (Z.to_nat quad.mapsize) with 2%nat.
  cbn [quad.for_loop replicate pool_get_all]. unfold bind, ret.
  change (0 + 1) with 1.
  destruct (pool_get cp 65536 h) as [[b0 cp1] h1] eqn:E0.
  pose proof (pool_get_heap cp 65536 h) as Hh. rewrite E0 in Hh. simpl in Hh. subst h1.
  destruct (pool_get cp1 65536 h) as [[b1 cp2] h1] eqn:E1.
  pose proof (pool_get_heap cp1 65536 h) as Hh. rewrite E1 in Hh. simpl in Hh. subst h1.
  destruct (pool_get cp2 65536 h) as [[b2 cp3] h1] eqn:E2.
  pose proof (pool_get_heap cp2 65536 h) as Hh. rewrite E2 in Hh. simpl in Hh. subst h1.
  destruct (pool_get cp3 65536 h) as [[b3 cp4] h1] eqn:E3.
  pose proof (pool_get_heap cp3 65536 h) as Hh. rewrite E3 in Hh. simpl in Hh. subst h1.
  change quad.new_map with
    (quad.Map [quad.default_node; quad.default_node; quad.default_node; quad.default_node]).
  destruct (vertexpool_section 65536 vp) as [v0 vp0] eqn:S0.
  init_round S0 E0.
  destruct (vertexpool_section 65536 vq) as [v1 vp1] eqn:S1.
  init_round S1 E1.
  destruct (vertexpool_section 65536 vq0) as [v2 vp2] eqn:S2.
  init_round S2 E2.
  destruct (vertexpool_section 65536 vq1) as [v3 vp3] eqn:S3.
  init_round S3 E3.
  exists v0, v1, v2, v3, b0, b1, b2, b3. split; reflexivity.
Qed.

(** C8.  [init] stores tile [(i, j)] at index [2 i + j] with the buffer that
    the corresponding [get] returned, whatever that buffer is; [map::get]
    resolves every point of the tile's footprint to it; and if the buffer
    is [{NULL, 0}] the tile's [get] is null at every point.  [init] has no
    result through which the failure could be reported. *)
Theorem failed_allocation_leaves_dead_tile
        (vp : Vertexpool) (cp : pool) (h : heap (T := T)) (i j : Z) :
  0 <= i < quad.mapsize -> 0 <= j < quad.mapsize ->
  let m := fst (fst (fst (quad.init Vertexpool vertexpool_section indexnode
                                    quad.new_map vp cp h))) in
  let requests := replicate (Z.to_nat quad.maparea) (int_div quad.tilearea quad.levelarea) in
  let k := i * quad.mapsize + j in
  exists (n : quad.node) (b : buf),
    quad.map_nodes m !! Z.to_nat k = Some n
    /\ fst (fst (pool_get_all cp requests h)) !! Z.to_nat k = Some b
    /\ slice_root (quad.node_s n) = b
    /\ quad.node_pos n = ivec2_mul quad.tileres (Ivec2 i j)
    /\ quad.node_res n = quad.tileres
    /\ (forall p, grid.in_footprint (quad.node_pos n) (quad.node_res n) p ->
        quad.map_get p = NodeAt k /\ quad.map_deref m (quad.map_get p) = Some n)
    /\ (b = null_buf -> forall p, quad.node_get n p = NULL).
Proof.
  intros Hi Hj m requests k.
  destruct (init_nodes vp cp h) as (v0 & v1 & v2 & v3 & b0 & b1 & b2 & b3 & Hbufs & Hnodes).
  fold m in Hnodes.
  change requests with (replicate 4 65536). rewrite Hbufs.
  assert (Hresolve : forall n : quad.node,
             quad.map_nodes m !! Z.to_nat k = Some n ->
             quad.node_pos n = ivec2_mul quad.tileres (Ivec2 i j) ->
             quad.node_res n = quad.tileres ->
             forall p, grid.in_footprint (quad.node_pos n) (quad.node_res n) p ->
             quad.map_get p = NodeAt k /\ quad.map_deref m (quad.map_get p) = Some n).
  { intros n Hn Hpos Hres p Hin. rewrite Hpos, Hres in Hin.
    destruct (quad_map_get_tile i j p Hi Hj Hin) as [Hget _].
    split; [exact Hget |]. rewrite Hget. unfold quad.map_deref. fold k.
    destruct (Z.ltb_spec k 0) as [Hneg | _]; [| exact Hn].
    unfold k, quad.mapsize in *. lia. }
  assert (Hdead : forall n : quad.node,
             slice_root (quad.node_s n) = null_buf -> forall p, quad.node_get n p = NULL).
  { intros n Hroot p. unfold quad.node_get. apply slice_get_dead.
    rewrite Hroot. reflexivity. }
  unfold quad.mapsize in Hi, Hj.
  assert (Hi' : i = 0 \/ i = 1) by lia. assert (Hj' : j = 0 \/ j = 1) by lia.
  rewrite Hnodes in Hresolve. rewrite Hnodes.
  destruct Hi' as [Ei | Ei]; destruct Hj' as [Ej | Ej]; subst i j;
    eexists; eexists;
    (split; [reflexivity |]); (split; [reflexivity |]); (split; [reflexivity |]);
    (split; [reflexivity |]); (split; [reflexivity |]);
    (split; [apply Hresolve; reflexivity |]);
    intros Hnull; apply Hdead; exact Hnull.
Qed.

End InitFacts.

Lemma failed_allocation_leaves_dead_tile_witness :
  exists n : quad.node,
    quad.map_nodes
      (fst (fst (fst (quad.init unit examples.null_section examples.null_indexnode
                                quad.new_map tt (fst examples.one_tile_pool)
                                (snd examples.one_tile_pool))))) !! 1%nat = Some n
    /\ slice_root (quad.node_s n) = null_buf
    /\ forall p, quad.node_get n p = NULL.
Proof.
  destruct (failed_allocation_leaves_dead_tile unit examples.null_section
              examples.null_indexnode tt (fst examples.one_tile_pool)
              (snd examples.one_tile_pool) 0 1)
    as (n & b & Hn & Hb & Hroot & _ & _ & _ & Hdead).
  - unfold quad.mapsize. lia.
  - unfold quad.mapsize. lia.
  - assert (Hnull : b = null_buf).
    { vm_compute in Hb. injection Hb as <-. reflexivity. }
    exists n. split; [exact Hn |]. split; [congruence |]. exact (Hdead Hnull).
Defined.

(** * Further properties of the pool *)

Section PoolRuns.

Context {T : Type}.
Variable indeterminate : T.
Implicit Types (p : pool) (h : heap (T := T)) (n o f : Z) (b : buf) (sizes : list Z).

(** A run of [get] on a pool with a front region of [f] cells, whatever the
    requests: each is granted if it fits what is left and refused if not. *)
Lemma pool_get_all_greedy sizes root blk o f rest h :
  Forall (fun n => 0 <= n) sizes ->
  0 <= f <= buf_size root -> f <= size_max ->
  let bufs := arena.greedy blk o f sizes in
  let used := arena.total (map buf_size bufs) in
  pool_get_all (Pool root (Buf (Ptr blk o) f :: rest)) sizes h
  = (bufs, Pool root (Buf (Ptr blk (o + used)) (f - used) :: rest), h)
  /\ 0 <= used <= f.
Proof.
  intros Hpos. revert o f.
  induction Hpos as [| n sizes Hn Hpos IH]; intros o f Hf Hmax; cbv zeta.
  - simpl. unfold ret. rewrite Z.add_0_r, Z.sub_0_r. split; [reflexivity | lia].
  - simpl. unfold bind. destruct (Z.gtb_spec n f) as [Hbig | Hfits].
    + rewrite (pool_get_refused (Pool root (Buf (Ptr blk o) f :: rest)) n h).
      2:{ right. right. exists (Buf (Ptr blk o) f), rest. split; [reflexivity | simpl; lia]. }
      destruct (IH o f Hf Hmax) as [Hrun Hused]. cbv zeta in Hrun, Hused.
      rewrite Hrun. unfold ret. simpl. split; [reflexivity | exact Hused].
    + rewrite (pool_get_granted (Pool root (Buf (Ptr blk o) f :: rest)) n h
                 (Buf (Ptr blk o) f) rest eq_refl) by (simpl; lia).
      simpl. rewrite wrap_size_id by (unfold size_range; lia).
      destruct (IH (o + n) (f - n) ltac:(lia) ltac:(lia)) as [Hrun Hused].
      cbv zeta in Hrun, Hused. rewrite Hrun. unfold ret.
      change (arena.total (map buf_size (Buf (Ptr blk o) n
                                         :: arena.greedy blk (o + n) (f - n) sizes)))
        with (n + arena.total (map buf_size (arena.greedy blk (o + n) (f - n) sizes))).
      split; [| lia].
      replace (o + n + arena.total (map buf_size (arena.greedy blk (o + n) (f - n) sizes)))
        with (o + (n + arena.total (map buf_size (arena.greedy blk (o + n) (f - n) sizes))))
        by lia.
      replace (f - n - arena.total (map buf_size (arena.greedy blk (o + n) (f - n) sizes)))
        with (f - (n + arena.total (map buf_size (arena.greedy blk (o + n) (f - n) sizes))))
        by lia.
      reflexivity.
Qed.

Lemma covers_null blk c : ~ arena.covers null_buf blk c.
Proof. intros (s & Hs & _). discriminate. Qed.

Lemma greedy_within blk o f sizes b c :
  Forall (fun n => 0 <= n) sizes -> 0 <= f ->
  b ∈ arena.greedy blk o f sizes -> arena.covers b blk c -> o <= c < o + f.
Proof.
  intros Hpos. revert o f. induction Hpos as [| n sizes Hn Hpos IH]; intros o f Hf Hin Hcov.
  - inversion Hin.
  - simpl in Hin. destruct (Z.gtb_spec n f) as [Hbig | Hfits];
      apply elem_of_cons in Hin as [-> | Hin].
    + destruct (covers_null blk c Hcov).
    + exact (IH o f Hf Hin Hcov).
    + destruct Hcov as (s & Hs & Hc). simpl in *. injection Hs as <-. lia.
    + specialize (IH (o + n) (f - n) ltac:(lia) Hin Hcov). lia.
Qed.

Lemma greedy_shape blk o f sizes :
  Forall (fun n => 0 <= n) sizes -> 0 <= f ->
  Forall2 (fun n b => b = null_buf
                      \/ (buf_size b = n
                          /\ exists s, buf_start b = Ptr blk s /\ o <= s /\ s + n <= o + f))
          sizes (arena.greedy blk o f sizes).
Proof.
  intros Hpos. revert o f. induction Hpos as [| n sizes Hn Hpos IH]; intros o f Hf; simpl.
  - constructor.
  - destruct (Z.gtb_spec n f) as [Hbig | Hfits]; constructor.
    + left. reflexivity.
    + apply IH. exact Hf.
    + right. split; [reflexivity |]. exists o. simpl. split; [reflexivity | lia].
    + eapply Forall2_impl; [apply (IH (o + n) (f - n)); lia |].
      intros m b [-> | (Hsz & s & Hs & Hlo & Hhi)]; [left; reflexivity | right].
      split; [exact Hsz |]. exists s. split; [exact Hs | lia].
Qed.

Lemma greedy_refused_iff blk o f sizes (i : nat) n b :
  Forall (fun n => 0 <= n) sizes -> 0 <= f ->
  sizes !! i = Some n -> arena.greedy blk o f sizes !! i = Some b ->
  b = null_buf
  <-> n > f - arena.total (map buf_size (take i (arena.greedy blk o f sizes))).
Proof.
  intros Hpos. revert o f i.
  induction Hpos as [| m sizes Hm Hpos IH]; intros o f i Hf Hn Hb; [destruct i; discriminate |].
  simpl in Hb |- *. destruct (Z.gtb_spec m f) as [Hbig | Hfits]; destruct i as [| i]; simpl in *.
  - injection Hn as <-. injection Hb as <-. split; [lia | reflexivity].
  - exact (IH o f i Hf Hn Hb).
  - injection Hn as <-. injection Hb as <-. split; [discriminate | lia].
  - rewrite (IH (o + m) (f - m) i ltac:(lia) Hn Hb). lia.
Qed.

Lemma greedy_disjoint blk o f sizes (i j : nat) bi bj c :
  Forall (fun n => 0 <= n) sizes -> 0 <= f -> i <> j ->
  arena.greedy blk o f sizes !! i = Some bi ->
  arena.greedy blk o f sizes !! j = Some bj ->
  ~ (arena.covers bi blk c /\ arena.covers bj blk c).
Proof.
  intros Hpos. revert o f i j.
  induction Hpos as [| n sizes Hn Hpos IH]; intros o f i j Hf Hij Hi Hj [Hci Hcj];
    [destruct i; discriminate |].
  simpl in Hi, Hj. destruct (Z.gtb_spec n f) as [Hbig | Hfits].
  - destruct i as [| i]; destruct j as [| j]; simpl in *; try lia.
    + injection Hi as <-. destruct (covers_null blk c Hci).
    + injection Hj as <-. destruct (covers_null blk c Hcj).
    + apply (IH o f i j Hf ltac:(lia) Hi Hj). split; assumption.
  - destruct i as [| i]; destruct j as [| j]; simpl in *; try lia.
    + injection Hi as <-.
      pose proof (greedy_within blk (o + n) (f - n) sizes bj c Hpos ltac:(lia)
                    (proj2 (list_elem_of_lookup _ _) (ex_intro _ j Hj)) Hcj).
      destruct Hci as (s & Hs & Hc). simpl in *. injection Hs as <-. lia.
    + injection Hj as <-.
      pose proof (greedy_within blk (o + n) (f - n) sizes bi c Hpos ltac:(lia)
                    (proj2 (list_elem_of_lookup _ _) (ex_intro _ i Hi)) Hci).
      destruct Hcj as (s & Hs & Hc). simpl in *. injection Hs as <-. lia.
    + apply (IH (o + n) (f - n) i j ltac:(lia) ltac:(lia) Hi Hj). split; assumption.
Qed.

End PoolRuns.

(** X1.  After [reserve(C)] on any pool, a run of [get] calls of any sizes:
    every call is refused or granted inside the fresh array, a call is
    refused exactly when it exceeds what the calls before it left, granted
    buffers share no cell, the capacity stays [C], the front free region is
    what the granted buffers left, the regions the pool had before stay
    behind it untouched, and the heap is not written. *)
Theorem reserve_then_any_gets_stay_in_fresh_array :
  forall (T : Type) (indeterminate : T) (p : pool) (C : Z) (sizes : list Z)
         (h : heap (T := T)),
    size_range C -> Forall size_range sizes ->
    let blk := length h in
    let r0 := pool_reserve indeterminate p C h in
    let r := pool_get_all (fst r0) sizes (snd r0) in
    let bufs := fst (fst r) in
    let used := arena.total (map buf_size bufs) in
    Forall2 (fun n b => b = null_buf
                        \/ (buf_size b = n
                            /\ exists o, buf_start b = Ptr blk o /\ 0 <= o /\ o + n <= C))
            sizes bufs
    /\ (forall (i : nat) n b, sizes !! i = Some n -> bufs !! i = Some b ->
        (b = null_buf <-> n > C - arena.total (map buf_size (take i bufs))))
    /\ (forall (i j : nat) bi bj c, i <> j -> bufs !! i = Some bi -> bufs !! j = Some bj ->
        ~ (arena.covers bi blk c /\ arena.covers bj blk c))
    /\ 0 <= used <= C
    /\ pool_root (snd (fst r)) = Buf (Ptr blk 0) C
    /\ pool_free (snd (fst r)) = Buf (Ptr blk used) (C - used) :: pool_free p
    /\ snd r = snd r0.
Proof.
  intros T indeterminate p C sizes h [HC0 HCmax] Hsizes blk r0 r bufs used.
  assert (Hpos : Forall (fun n => 0 <= n) sizes).
  { eapply Forall_impl; [exact Hsizes |]. intros n [Hn _]. exact Hn. }
  destruct (pool_get_all_greedy sizes (Buf (Ptr blk 0) C) blk 0 C (pool_free p) (snd r0) Hpos)
    as [Hrun Hused]; [simpl; lia | exact HCmax |].
  cbv zeta in Hrun, Hused.
  assert (Hr : r = (arena.greedy blk 0 C sizes,
                    Pool (Buf (Ptr blk 0) C)
                         (Buf (Ptr blk (0 + arena.total (map buf_size (arena.greedy blk 0 C sizes))))
                              (C - arena.total (map buf_size (arena.greedy blk 0 C sizes)))
                          :: pool_free p),
                    snd r0)) by exact Hrun.
  assert (Hbufs : bufs = arena.greedy blk 0 C sizes) by (subst bufs; rewrite Hr; reflexivity).
  subst used. rewrite Hbufs, Hr. simpl.
  split.
  { eapply Forall2_impl; [apply (greedy_shape blk 0 C sizes Hpos HC0) |].
    intros n b [-> | (Hsz & s & Hs & Hlo & Hhi)]; [left; reflexivity | right].
    split; [exact Hsz |]. exists s. split; [exact Hs | lia]. }
  split; [intros i n b; apply greedy_refused_iff; assumption |].
  split; [intros i j bi bj c; apply greedy_disjoint; assumption |].
  repeat split; try lia; reflexivity.
Qed.

Lemma reserve_then_any_gets_stay_in_fresh_array_witness :
  fst (fst (pool_get_all (fst (pool_reserve tt empty_pool 100 [])) [60; 50; 40; 1]
                         (snd (pool_reserve tt empty_pool 100 []))))
  = [Buf (Ptr 0%nat 0) 60; null_buf; Buf (Ptr 0%nat 60) 40; null_buf]
  /\ pool_free (snd (fst (pool_get_all (fst (pool_reserve tt empty_pool 100 []))
                                      [60; 50; 40; 1]
                                      (snd (pool_reserve tt empty_pool 100 [])))))
     = [Buf (Ptr 0%nat 100) 0].
Proof.
  pose proof (arena_free := proj2 (proj2 (proj2 (proj2 (proj2
      (reserve_then_any_gets_stay_in_fresh_array unit tt empty_pool 100 [60; 50; 40; 1] []
         ltac:(unfold size_range, size_max; lia)
         ltac:(unfold size_range, size_max; repeat constructor; lia))))))).
  cbv zeta in arena_free. destruct arena_free as [Hfree _].
  split; [reflexivity | exact Hfree].
Defined.

Section PoolEdges.

Context {T : Type}.
Variable indeterminate : T.
Implicit Types (p : pool) (h : heap (T := T)) (n m : Z) (b : buf).

Lemma wrap_size_range (z : Z) : size_range (wrap_size z).
Proof.
  unfold size_range, size_max, wrap_size.
  pose proof (Z.mod_pos_bound z (2 ^ 64) ltac:(lia)). lia.
Qed.

(** Every length a reachable pool records is a [size_t] value. *)
Lemma reachable_sizes p :
  arena.reachable indeterminate p ->
  size_range (buf_size (pool_root p))
  /\ Forall (fun b => size_range (buf_size b)) (pool_free p).
Proof.
  induction 1 as [| p n h Hp [IHroot IHfree] Hn | p n h Hp [IHroot IHfree] Hn].
  - split; [unfold size_range, size_max; simpl; lia | constructor].
  - simpl. split; [exact Hn |]. constructor; [exact Hn | exact IHfree].
  - unfold pool_get. destruct (pool_free p) as [| front rest] eqn:Hfree; simpl.
    + rewrite Hfree. split; [exact IHroot | constructor].
    + destruct (n >? buf_size (pool_root p)); simpl;
        [rewrite Hfree; split; assumption |].
      destruct (buf_size front <? n); simpl; [rewrite Hfree; split; assumption |].
      split; [exact IHroot |]. inversion IHfree; subst.
      constructor; [apply wrap_size_range | assumption].
Qed.

Lemma refused_mono p n n' : arena.refused p n -> n <= n' -> arena.refused p n'.
Proof.
  intros [Hempty | [Hroot | (front & rest & Hfree & Hfront)]] Hle.
  - left. exact Hempty.
  - right. left. lia.
  - right. right. exists front, rest. split; [exact Hfree | lia].
Qed.

Lemma refused_after_get p n n' m h :
  0 <= m -> arena.refused p n -> n <= n' ->
  arena.refused (snd (fst (pool_get p m h))) n'.
Proof.
  intros Hm Href Hle. unfold pool_get.
  destruct (pool_free p) as [| front rest] eqn:Hfree; simpl.
  { left. exact Hfree. }
  destruct (Z.gtb_spec m (buf_size (pool_root p))) as [Hbig | Hroot]; simpl;
    [apply (refused_mono p n n' Href Hle) |].
  destruct (Z.ltb_spec (buf_size front) m) as [Hsmall | Hfits]; simpl;
    [apply (refused_mono p n n' Href Hle) |].
  destruct Href as [Hempty | [Hcap | (f & r & Hf & Hfront)]].
  - rewrite Hfree in Hempty. discriminate.
  - right. left. simpl. lia.
  - rewrite Hfree in Hf. injection Hf as <- <-.
    right. right. eexists. eexists. split; [reflexivity |]. simpl. unfold wrap_size.
    pose proof (Z.mod_le (buf_size front - m) (2 ^ 64) ltac:(lia) ltac:(lia)). lia.
Qed.

Lemma refused_after_run p (sizes : list Z) n n' h :
  Forall (fun m => 0 <= m) sizes -> arena.refused p n -> n <= n' ->
  arena.refused (snd (fst (pool_get_all p sizes h))) n'.
Proof.
  intros Hpos. revert p h. induction Hpos as [| m sizes Hm Hpos IH]; intros p h Href Hle.
  - simpl. apply (refused_mono p n n' Href Hle).
  - simpl. unfold bind.
    pose proof (refused_after_get p n n m h Hm Href ltac:(lia)) as Hstep.
    destruct (pool_get p m h) as [[b p'] h']. simpl in Hstep.
    specialize (IH p' h' Hstep Hle).
    destruct (pool_get_all p' sizes h') as [[bs p''] h'']. exact IH.
Qed.

End PoolEdges.

(** X2.  On a reachable pool that has a free region, [get(0)] is never
    refused, even when no cell is left: it returns a non-null buffer of
    length 0 and leaves the pool and the heap as they were. *)
Theorem zero_request_is_granted_and_changes_nothing :
  forall (T : Type) (indeterminate : T) (p : pool) (h : heap (T := T)),
    arena.reachable indeterminate p -> pool_free p <> [] ->
    buf_start (fst (fst (pool_get p 0 h))) <> NULL
    /\ buf_size (fst (fst (pool_get p 0 h))) = 0
    /\ snd (fst (pool_get p 0 h)) = p
    /\ snd (pool_get p 0 h) = h.
Proof.
  intros T indeterminate p h Hreach Hfree.
  destruct (reachable_sizes indeterminate p Hreach) as [[Hroot _] Hsizes].
  pose proof (reachable_free_not_null indeterminate p Hreach) as Hstarts.
  destruct p as [root free]. simpl in *.
  destruct free as [| front rest]; [contradiction |].
  inversion Hsizes as [| ? ? Hfront _]; subst. inversion Hstarts as [| ? ? Hstart _]; subst.
  rewrite (pool_get_granted (Pool root (front :: rest)) 0 h front rest eq_refl)
    by (simpl; unfold size_range in *; lia).
  simpl. repeat split; try assumption.
  rewrite Z.sub_0_r, (wrap_size_id _ Hfront).
  destruct front as [[| b o] f]; simpl; [contradiction |].
  rewrite Z.add_0_r. reflexivity.
Qed.

Lemma zero_request_is_granted_and_changes_nothing_witness :
  buf_start (fst (fst (pool_get (snd (fst (pool_get (fst (new_pool tt 100 [])) 100
                                                    (snd (new_pool tt 100 [])))))
                                0 (snd (new_pool tt 100 [])))))
  <> NULL.
Proof.
  apply (zero_request_is_granted_and_changes_nothing unit tt
           (snd (fst (pool_get (fst (new_pool tt 100 [])) 100 (snd (new_pool tt 100 [])))))
           (snd (new_pool tt 100 []))).
  - apply arena.reach_get; [| unfold size_range, size_max; lia].
    apply (arena.reach_reserve tt empty_pool 100 []);
      [apply arena.reach_empty | unfold size_range, size_max; lia].
  - discriminate.
Defined.

(** X3.  Nothing is ever given back: a request that is refused stays
    refused, and so does every larger one, after any further [get] calls. *)
Theorem refused_request_stays_refused :
  forall (T : Type) (p : pool) (sizes : list Z) (n n' : Z) (h : heap (T := T)),
    Forall (fun m => 0 <= m) sizes -> arena.refused p n -> n <= n' ->
    let r := pool_get_all p sizes h in
    arena.refused (snd (fst r)) n'
    /\ pool_get (snd (fst r)) n' (snd r) = (null_buf, snd (fst r), snd r).
Proof.
  intros T p sizes n n' h Hpos Href Hle r.
  pose proof (refused_after_run p sizes n n' h Hpos Href Hle) as Hlater.
  split; [exact Hlater | apply pool_get_refused; exact Hlater].
Qed.

Lemma refused_request_stays_refused_witness :
  pool_get (snd (fst (pool_get_all (fst (new_pool tt 100 [])) [30; 0; 5]
                                   (snd (new_pool tt 100 [])))))
           120
           (snd (pool_get_all (fst (new_pool tt 100 [])) [30; 0; 5] (snd (new_pool tt 100 []))))
  = (null_buf,
     snd (fst (pool_get_all (fst (new_pool tt 100 [])) [30; 0; 5] (snd (new_pool tt 100 [])))),
     snd (pool_get_all (fst (new_pool tt 100 [])) [30; 0; 5] (snd (new_pool tt 100 [])))).
Proof.
  apply (proj2 (refused_request_stays_refused unit (fst (new_pool tt 100 [])) [30; 0; 5]
                  101 120 (snd (new_pool tt 100 []))
                  ltac:(repeat constructor; lia)
                  ltac:(right; left; simpl; lia)
                  ltac:(lia))).
Defined.

(** * Further properties of slices and tiles *)

Lemma slice_oob_false (s : slice) (p : ivec2) :
  slice_oob s p = false <->
  0 <= x p < x (slice_res s) /\ 0 <= y p < y (slice_res s).
Proof.
  destruct (slice_oob s p) eqn:E.
  - apply slice_oob_true in E. split; [discriminate | lia].
  - split; [intros _ | reflexivity].
    assert (Hn : ~ (x p < 0 \/ y p < 0 \/ x p >= x (slice_res s) \/ y p >= y (slice_res s))).
    { rewrite <- slice_oob_true, E. discriminate. }
    lia.
Qed.

(** Row-major flattening is one-to-one from the in-bounds points onto
    [0 .. rx * ry - 1]. *)
Lemma flatten_range (p r : ivec2) :
  0 <= x p < x r -> 0 <= y p < y r -> 0 <= flatten p r < x r * y r.
Proof. unfold flatten. intros Hx Hy. nia. Qed.

Lemma flatten_injective (p q r : ivec2) :
  0 <= y p < y r -> 0 <= y q < y r -> flatten p r = flatten q r -> p = q.
Proof.
  unfold flatten. intros Hp Hq Heq. destruct p as [px py], q as [qx qy]. simpl in *.
  assert (Hx : px = qx) by nia. subst qx. f_equal. lia.
Qed.

Lemma flatten_onto (r : ivec2) (c : Z) :
  0 <= x r -> 0 <= y r -> 0 <= c < x r * y r ->
  exists p, 0 <= x p < x r /\ 0 <= y p < y r /\ flatten p r = c.
Proof.
  intros Hrx Hry Hc. assert (Hy : 0 < y r) by nia.
  exists (Ivec2 (c / y r) (c mod y r)). unfold flatten. simpl.
  pose proof (Z.mod_pos_bound c (y r) Hy) as Hmod.
  pose proof (Z.div_mod c (y r) ltac:(lia)) as Hdm.
  assert (Hdiv : 0 <= c / y r) by (apply Z.div_pos; lia).
  assert (Hlt : c / y r < x r) by (apply Z.div_lt_upper_bound; lia).
  repeat split; lia.
Qed.

(** X4.  For a slice that keeps its contract (a non-null root of exactly
    [res.x * res.y] cells, [res] not negative), [get] is a one-to-one
    correspondence between the in-bounds points and the cells of the
    buffer: every in-bounds point gets a cell inside the buffer, two
    different points never share a cell, and every cell belongs to a
    point. *)
Theorem slice_get_is_a_bijection_onto_the_buffer :
  forall (s : slice) (b : block) (o : Z),
    buf_start (slice_root s) = Ptr b o ->
    buf_size (slice_root s) = x (slice_res s) * y (slice_res s) ->
    0 <= x (slice_res s) -> 0 <= y (slice_res s) ->
    (forall p, slice_oob s p = false ->
       exists c, slice_get s p = Ptr b c /\ o <= c < o + buf_size (slice_root s))
    /\ (forall p q, slice_oob s p = false -> slice_oob s q = false ->
        slice_get s p = slice_get s q -> p = q)
    /\ (forall c, o <= c < o + buf_size (slice_root s) ->
        exists p, slice_oob s p = false /\ slice_get s p = Ptr b c).
Proof.
  intros s b o Hstart Hsize Hrx Hry. split; [| split].
  - intros p Hp. rewrite (slice_get_in_bounds s p b o Hstart Hp).
    apply slice_oob_false in Hp as [Hx Hy].
    pose proof (flatten_range p (slice_res s) Hx Hy).
    eexists. split; [reflexivity | lia].
  - intros p q Hp Hq Heq.
    rewrite (slice_get_in_bounds s p b o Hstart Hp),
            (slice_get_in_bounds s q b o Hstart Hq) in Heq.
    apply slice_oob_false in Hp as [_ Hpy]. apply slice_oob_false in Hq as [_ Hqy].
    injection Heq as Heq.
    apply (flatten_injective p q (slice_res s) Hpy Hqy). lia.
  - intros c Hc.
    destruct (flatten_onto (slice_res s) (c - o) Hrx Hry ltac:(lia)) as (p & Hx & Hy & Hflat).
    assert (Hp : slice_oob s p = false) by (apply slice_oob_false; split; assumption).
    exists p. split; [exact Hp |].
    rewrite (slice_get_in_bounds s p b o Hstart Hp), Hflat. f_equal. lia.
Qed.

Lemma slice_get_is_a_bijection_onto_the_buffer_witness :
  exists c, slice_get (quadmap.node_s examples.coarse_tile) (Ivec2 3 3) = Ptr 0%nat c
            /\ 0 <= c < 0 + 16.
Proof.
  exact (proj1 (slice_get_is_a_bijection_onto_the_buffer
                  (quadmap.node_s examples.coarse_tile) 0%nat 0 eq_refl eq_refl
                  ltac:(simpl; lia) ltac:(simpl; lia))
               (Ivec2 3 3) eq_refl).
Defined.

(** The truncated quotient by [k >= 1] lies in [[0, r)], [r >= 1], exactly
    for the dividends strictly between [-k] and [k * r]. *)
Lemma quot_in_bounds (d k r : Z) :
  1 <= k -> 1 <= r -> (0 <= Z.quot d k < r <-> - k < d < k * r).
Proof.
  intros Hk Hr. destruct (Z_lt_le_dec d 0) as [Hneg | Hpos].
  - destruct (Z_lt_le_dec (- k) d) as [Hnear | Hfar].
    + replace d with (- (- d)) by lia. rewrite Z.quot_opp_l by lia.
      rewrite Z.quot_small by lia. simpl. split; intros _; nia.
    + assert (Hq : Z.quot d k <= -1).
      { replace d with (- (- d)) by lia. rewrite Z.quot_opp_l by lia.
        assert (1 <= Z.quot (- d) k); [| lia].
        apply Z.quot_le_lower_bound; lia. }
      split; intros; lia.
  - rewrite Z.quot_div_nonneg by lia.
    pose proof (Z.div_pos d k Hpos ltac:(lia)).
    split.
    + intros [_ Hlt]. split; [lia |].
      destruct (Z_lt_le_dec d (k * r)) as [Hok | Hbad]; [exact Hok |].
      pose proof (Z.div_le_lower_bound d k r ltac:(lia) Hbad). lia.
    + intros [_ Hlt]. split; [assumption |]. apply Z.div_lt_upper_bound; lia.
Qed.

Lemma local_in_bounds (s : slice) (pos p : ivec2) (k : Z) :
  1 <= k -> int_range k ->
  1 <= x (slice_res s) -> 1 <= y (slice_res s) ->
  int_range (x p - x pos) -> int_range (y p - y pos) ->
  slice_oob s (ivec2_div_int (ivec2_sub p pos) k) = false
  <-> x pos - k < x p < x pos + k * x (slice_res s)
      /\ y pos - k < y p < y pos + k * y (slice_res s).
Proof.
  intros Hk Hkr Hrx Hry Hdx Hdy.
  rewrite slice_oob_false. unfold ivec2_div_int, ivec2_sub, int_sub. simpl.
  rewrite (wrap_int_id _ Hdx), (wrap_int_id _ Hdy).
  rewrite !int_div_quot by (assumption || lia).
  rewrite (quot_in_bounds (x p - x pos) k _ Hk Hrx).
  rewrite (quot_in_bounds (y p - y pos) k _ Hk Hry). lia.
Qed.

(** X5.  With scale [k >= 1] and a slice of at least one column and row,
    the world points a tile accepts are exactly those strictly between
    [pos - k] and [pos + k * res] on each axis ([res] the slice's
    resolution), as long as [p - pos] does not overflow; [get] is non-null
    on exactly these points when the tile is backed.  In [quad] the scale
    is [levelsize = 2]. *)
Theorem node_accepts_exactly_the_scaled_region :
  (forall (t : quadmap.node) (p : ivec2),
      let k := slice_scale (quadmap.node_s t) in
      let pos := quadmap.node_pos t in
      let r := slice_res (quadmap.node_s t) in
      1 <= k -> int_range k -> 1 <= x r -> 1 <= y r ->
      int_range (x p - x pos) -> int_range (y p - y pos) ->
      (quadmap.node_oob t p = false
       <-> x pos - k < x p < x pos + k * x r /\ y pos - k < y p < y pos + k * y r)
      /\ (quadmap.node_get t p <> NULL
          <-> buf_start (slice_root (quadmap.node_s t)) <> NULL
              /\ x pos - k < x p < x pos + k * x r /\ y pos - k < y p < y pos + k * y r))
  /\ (forall (t : quad.node) (p : ivec2),
      let pos := quad.node_pos t in
      let r := slice_res (quad.node_s t) in
      1 <= x r -> 1 <= y r ->
      int_range (x p - x pos) -> int_range (y p - y pos) ->
      (quad.node_oob t p = false
       <-> x pos - 2 < x p < x pos + 2 * x r /\ y pos - 2 < y p < y pos + 2 * y r)
      /\ (quad.node_get t p <> NULL
          <-> buf_start (slice_root (quad.node_s t)) <> NULL
              /\ x pos - 2 < x p < x pos + 2 * x r /\ y pos - 2 < y p < y pos + 2 * y r)).
Proof.
  assert (Hget : forall (s : slice) (q : ivec2) (P : Prop),
             (slice_oob s q = false <-> P) ->
             (slice_get s q <> NULL <-> buf_start (slice_root s) <> NULL /\ P)).
  { intros s q P HP. rewrite <- HP. pose proof (slice_get_null s q) as Hnull.
    destruct (slice_oob s q); destruct (buf_start (slice_root s));
      split; intros Hgoal; try tauto; try (split; congruence);
      try (intros Hn; apply Hnull in Hn; destruct Hn; congruence);
      try (exfalso; apply Hgoal; apply Hnull; auto);
      try (destruct Hgoal; congruence). }
  split.
  - intros t p k pos r Hk Hkr Hrx Hry Hdx Hdy.
    pose proof (local_in_bounds (quadmap.node_s t) pos p k Hk Hkr Hrx Hry Hdx Hdy) as Hin.
    split; [exact Hin | exact (Hget _ _ _ Hin)].
  - intros t p pos r Hrx Hry Hdx Hdy.
    pose proof (local_in_bounds (quad.node_s t) pos p quad.levelsize
                  ltac:(unfold quad.levelsize; lia)
                  ltac:(vm_compute; split; discriminate) Hrx Hry Hdx Hdy) as Hin.
    change quad.levelsize with 2 in Hin.
    split; [exact Hin | exact (Hget _ _ _ Hin)].
Qed.

Lemma node_accepts_exactly_the_scaled_region_witness :
  quadmap.node_oob examples.coarse_tile (Ivec2 (-1) 7) = false.
Proof.
  apply (proj1 (proj1 node_accepts_exactly_the_scaled_region examples.coarse_tile
                      (Ivec2 (-1) 7)
                      ltac:(simpl; lia) ltac:(vm_compute; split; discriminate)
                      ltac:(simpl; lia) ltac:(simpl; lia)
                      ltac:(vm_compute; split; discriminate)
                      ltac:(vm_compute; split; discriminate))).
  simpl. lia.
Defined.

(** * Further properties of the maps *)

Lemma fold_min_le_elem {A : Type} (f : A -> Z) (a : Z) (e : A) (l : list A) :
  e ∈ l -> fold_right Z.min a (map f l) <= f e.
Proof.
  induction l as [| c l IH]; intros Hin; [inversion Hin |].
  apply elem_of_cons in Hin as [-> | Hin]; simpl; [lia |].
  specialize (IH Hin). lia.
Qed.

Lemma fold_max_ge_init (a : Z) (l : list Z) : a <= fold_right Z.max a l.
Proof. induction l as [| c l IH]; simpl; lia. Qed.

Lemma map_oob_false (m : quadmap.map) (p : ivec2) :
  quadmap.map_oob m p = false <->
  x (quadmap._min m) <= x p < x (quadmap._max m)
  /\ y (quadmap._min m) <= y p < y (quadmap._max m).
Proof.
  destruct (quadmap.map_oob m p) eqn:E.
  - apply map_oob_true in E. split; [discriminate | lia].
  - split; [intros _ | reflexivity].
    assert (Hn : ~ (x p < x (quadmap._min m) \/ y p < y (quadmap._min m)
                    \/ x p >= x (quadmap._max m) \/ y p >= y (quadmap._max m))).
    { rewrite <- map_oob_true, E. discriminate. }
    lia.
Qed.

(** X6.  [add] only ever widens the bounds: a point that was in bounds
    stays in bounds, and every point of the footprint of an added tile is
    in bounds afterwards (for a tile whose far corner [pos + res] does not
    overflow). *)
Theorem add_keeps_points_and_footprints_in_bounds :
  forall (m : quadmap.map) (ns : list quadmap.node),
    (forall p, quadmap.map_oob m p = false ->
               quadmap.map_oob (quadmap.map_add_all m ns) p = false)
    /\ (forall n p, n ∈ ns ->
          int_range (x (quadmap.node_pos n) + x (quadmap.node_res n)) ->
          int_range (y (quadmap.node_pos n) + y (quadmap.node_res n)) ->
          grid.in_footprint (quadmap.node_pos n) (quadmap.node_res n) p ->
          quadmap.map_oob (quadmap.map_add_all m ns) p = false).
Proof.
  intros m ns.
  destruct (map_add_all_bounds m ns) as (Hminx & Hminy & Hmaxx & Hmaxy).
  split.
  - intros p Hp. apply map_oob_false in Hp. apply map_oob_false.
    rewrite Hminx, Hminy, Hmaxx, Hmaxy.
    pose proof (fold_min_le_init (x (quadmap._min m))
                  (map (fun n => x (quadmap.node_pos n)) ns)).
    pose proof (fold_min_le_init (y (quadmap._min m))
                  (map (fun n => y (quadmap.node_pos n)) ns)).
    pose proof (fold_max_ge_init (x (quadmap._max m))
                  (map (fun n => x (ivec2_add (quadmap.node_pos n) (quadmap.node_res n))) ns)).
    pose proof (fold_max_ge_init (y (quadmap._max m))
                  (map (fun n => y (ivec2_add (quadmap.node_pos n) (quadmap.node_res n))) ns)).
    lia.
  - intros n p Hn Hcx Hcy [Hx Hy]. apply map_oob_false.
    rewrite Hminx, Hminy, Hmaxx, Hmaxy.
    pose proof (fold_min_le_elem (fun n => x (quadmap.node_pos n)) (x (quadmap._min m)) n ns Hn).
    pose proof (fold_min_le_elem (fun n => y (quadmap.node_pos n)) (y (quadmap._min m)) n ns Hn).
    pose proof (fold_max_ge_elem
                  (fun n => x (ivec2_add (quadmap.node_pos n) (quadmap.node_res n)))
                  (x (quadmap._max m)) n ns Hn) as Hgx.
    pose proof (fold_max_ge_elem
                  (fun n => y (ivec2_add (quadmap.node_pos n) (quadmap.node_res n)))
                  (y (quadmap._max m)) n ns Hn) as Hgy.
    cbv beta in *.
    assert (Hex : x (ivec2_add (quadmap.node_pos n) (quadmap.node_res n))
                  = x (quadmap.node_pos n) + x (quadmap.node_res n))
      by (simpl; apply wrap_int_id; exact Hcx).
    assert (Hey : y (ivec2_add (quadmap.node_pos n) (quadmap.node_res n))
                  = y (quadmap.node_pos n) + y (quadmap.node_res n))
      by (simpl; apply wrap_int_id; exact Hcy).
    rewrite Hex in Hgx. rewrite Hey in Hgy. lia.
Qed.

Lemma add_keeps_points_and_footprints_in_bounds_witness :
  quadmap.map_oob (quadmap.map_add_all quadmap.empty_map [examples.far_tile]) (Ivec2 12 14)
  = false.
Proof.
  apply (proj2 (add_keeps_points_and_footprints_in_bounds quadmap.empty_map
                  [examples.far_tile]) examples.far_tile (Ivec2 12 14)).
  - apply list_elem_of_singleton. reflexivity.
  - vm_compute. split; discriminate.
  - vm_compute. split; discriminate.
  - unfold grid.in_footprint. simpl. lia.
Defined.

(** X7.  If the bounds of a map lie inside the lattice ([_min >= 0] and
    [_max <= TILES * WSIZE] on both axes), every in-bounds point resolves
    to element [(p.x / WSIZE) * TILES + p.y / WSIZE] with both quotients
    below [TILES]: the index is inside a vector of [TILES * TILES] tiles. *)
Theorem map_get_index_stays_in_the_lattice :
  forall (WSIZE TILES : Z) (m : quadmap.map) (p : ivec2),
    0 < WSIZE -> 0 < TILES ->
    TILES * WSIZE <= int_max -> TILES * TILES <= int_max ->
    0 <= x (quadmap._min m) -> 0 <= y (quadmap._min m) ->
    x (quadmap._max m) <= TILES * WSIZE -> y (quadmap._max m) <= TILES * WSIZE ->
    quadmap.map_oob m p = false ->
    0 <= x p / WSIZE < TILES /\ 0 <= y p / WSIZE < TILES
    /\ quadmap.map_get WSIZE TILES m p = NodeAt (x p / WSIZE * TILES + y p / WSIZE)
    /\ 0 <= x p / WSIZE * TILES + y p / WSIZE < TILES * TILES
    /\ (length (quadmap.map_nodes m) = Z.to_nat (TILES * TILES) ->
        is_Some (quadmap.map_deref m (quadmap.map_get WSIZE TILES m p))).
Proof.
  intros W N m p HW HN HNW HNN Hminx Hminy Hmaxx Hmaxy Hoob.
  apply map_oob_false in Hoob as Hin. destruct Hin as [Hx Hy].
  pose proof (Z.div_mod (x p) W ltac:(lia)) as Hdx.
  pose proof (Z.mod_pos_bound (x p) W HW) as Hmx.
  pose proof (Z.div_mod (y p) W ltac:(lia)) as Hdy.
  pose proof (Z.mod_pos_bound (y p) W HW) as Hmy.
  assert (Hi : 0 <= x p / W < N).
  { split; [apply Z.div_pos; lia | apply Z.div_lt_upper_bound; lia]. }
  assert (Hj : 0 <= y p / W < N).
  { split; [apply Z.div_pos; lia | apply Z.div_lt_upper_bound; lia]. }
  destruct (lattice_index W N p (x p / W) (y p / W) HW HNW HNN Hi Hj) as [Hind _].
  { unfold grid.in_footprint. simpl. lia. }
  assert (Hk : 0 <= x p / W * N + y p / W < N * N) by nia.
  assert (Hget : quadmap.map_get W N m p = NodeAt (x p / W * N + y p / W)).
  { unfold quadmap.map_get. rewrite Hoob. cbv zeta. rewrite Hind. reflexivity. }
  repeat split; try lia; try exact Hget.
  intros Hlen. rewrite Hget. unfold quadmap.map_deref.
  destruct (Z.ltb_spec (x p / W * N + y p / W) 0); [lia |].
  apply lookup_lt_is_Some. lia.
Qed.

Lemma map_get_index_stays_in_the_lattice_witness :
  quadmap.map_get 4 2 examples.small_grid (Ivec2 7 3) = NodeAt (7 / 4 * 2 + 3 / 4).
Proof.
  apply (map_get_index_stays_in_the_lattice 4 2 examples.small_grid (Ivec2 7 3));
    try (unfold int_max; lia); try (simpl; lia); reflexivity.
Defined.

Lemma quad_map_oob_false (p : ivec2) :
  quad.map_oob p = false <-> 0 <= x p < 1024 /\ 0 <= y p < 1024.
Proof.
  destruct (quad.map_oob p) eqn:E.
  - apply quad_map_oob_true in E. change quad.size with 1024 in E.
    split; [discriminate | lia].
  - split; [intros _ | reflexivity].
    assert (Hn : ~ (x p < 0 \/ y p < 0 \/ x p >= quad.size \/ y p >= quad.size)).
    { rewrite <- quad_map_oob_true, E. discriminate. }
    change quad.size with 1024 in Hn. lia.
Qed.

Section InitTiles.

Context {T : Type}.
Variable indeterminate : T.
Variable Vertexpool : Type.
Variable vertexpool_section : Z -> Vertexpool -> ptr * Vertexpool.
Variable indexnode : Z -> Vertexpool -> quad.node -> Vertexpool.

(** The tile [init] leaves at index [2 i + j]. *)
Lemma init_tile (vp : Vertexpool) (cp : pool) (h : heap (T := T)) (i j : Z) :
  0 <= i < 2 -> 0 <= j < 2 ->
  exists (b : buf) (vertex : ptr),
    fst (fst (pool_get_all cp (replicate 4 65536) h)) !! Z.to_nat (i * 2 + j) = Some b
    /\ quad.map_nodes
         (fst (fst (fst (quad.init Vertexpool vertexpool_section indexnode
                                   quad.new_map vp cp h)))) !! Z.to_nat (i * 2 + j)
       = Some (quad.Node (Ivec2 (i * 512) (j * 512)) (Ivec2 512 512) vertex
                         (Slice b (Ivec2 256 256) 1)).
Proof.
  intros Hi Hj.
  destruct (init_nodes Vertexpool vertexpool_section indexnode vp cp h)
    as (v0 & v1 & v2 & v3 & b0 & b1 & b2 & b3 & Hbufs & Hnodes).
  rewrite Hbufs, Hnodes.
  assert (Hi' : i = 0 \/ i = 1) by lia. assert (Hj' : j = 0 \/ j = 1) by lia.
  destruct Hi' as [-> | ->]; destruct Hj' as [-> | ->];
    eexists; eexists; split; reflexivity.
Qed.

(** X8.  On the map [init] builds, [get] of an in-bounds point is never
    null and never leaves the array: it is the address of a stored tile
    whose footprint contains the point. *)
Theorem in_bounds_point_resolves_to_its_tile
        (vp : Vertexpool) (cp : pool) (h : heap (T := T)) (p : ivec2) :
  quad.map_oob p = false ->
  let m := fst (fst (fst (quad.init Vertexpool vertexpool_section indexnode
                                    quad.new_map vp cp h))) in
  exists n : quad.node,
    quad.map_get p <> NullNode
    /\ quad.map_deref m (quad.map_get p) = Some n
    /\ grid.in_footprint (quad.node_pos n) (quad.node_res n) p.
Proof.
  intros Hoob m. apply quad_map_oob_false in Hoob as [Hx Hy].
  pose proof (Z.div_mod (x p) 512 ltac:(lia)) as Hdx.
  pose proof (Z.mod_pos_bound (x p) 512 ltac:(lia)) as Hmx.
  pose proof (Z.div_mod (y p) 512 ltac:(lia)) as Hdy.
  pose proof (Z.mod_pos_bound (y p) 512 ltac:(lia)) as Hmy.
  assert (Hi : 0 <= x p / 512 < 2).
  { split; [apply Z.div_pos; lia | apply Z.div_lt_upper_bound; lia]. }
  assert (Hj : 0 <= y p / 512 < 2).
  { split; [apply Z.div_pos; lia | apply Z.div_lt_upper_bound; lia]. }
  assert (Hin : grid.in_footprint (Ivec2 (x p / 512 * 512) (y p / 512 * 512))
                                  (Ivec2 512 512) p).
  { unfold grid.in_footprint. simpl. lia. }
  destruct (quad_map_get_tile (x p / 512) (y p / 512) p Hi Hj) as [Hget _].
  { rewrite (quad_tile_origin _ _ Hi Hj). exact Hin. }
  destruct (init_tile vp cp h (x p / 512) (y p / 512) Hi Hj) as (b & vertex & _ & Hnode).
  eexists. rewrite Hget. split; [discriminate |]. split.
  - unfold quad.map_deref. change quad.mapsize with 2.
    destruct (Z.ltb_spec (x p / 512 * 2 + y p / 512) 0); [lia | exact Hnode].
  - exact Hin.
Qed.

(** X9.  [init] on a fresh pool of capacity [C]: tile [k] (in the order
    [init] visits them) is backed by cells [65536 k ..] of the pool's array
    exactly when [65536 (k + 1) <= C], and keeps the slice contract then
    ([size()] equals the length of the root); with less capacity its root
    is [{NULL, 0}] although [size()] is still 65536. *)
Theorem init_backs_tiles_while_capacity_lasts
        (vp : Vertexpool) (C : Z) (h0 : heap (T := T)) (k : nat) :
  size_range C -> (k < 4)%nat ->
  let r0 := new_pool indeterminate C h0 in
  let m := fst (fst (fst (quad.init Vertexpool vertexpool_section indexnode
                                    quad.new_map vp (fst r0) (snd r0)))) in
  exists n : quad.node,
    quad.map_nodes m !! k = Some n
    /\ slice_size (quad.node_s n) = 65536
    /\ ((Z.of_nat k + 1) * 65536 <= C ->
        slice_root (quad.node_s n) = Buf (Ptr (length h0) (Z.of_nat k * 65536)) 65536)
    /\ (C < (Z.of_nat k + 1) * 65536 -> slice_root (quad.node_s n) = null_buf).
Proof.
  intros [HC0 HCmax] Hk r0 m.
  destruct (init_nodes Vertexpool vertexpool_section indexnode vp (fst r0) (snd r0))
    as (v0 & v1 & v2 & v3 & b0 & b1 & b2 & b3 & Hbufs & Hnodes).
  fold m in Hnodes. rewrite Hnodes.
  destruct (pool_get_all_greedy (replicate 4 65536) (Buf (Ptr (length h0) 0) C)
              (length h0) 0 C [] (snd r0)) as [Hrun _];
    [repeat constructor; lia | simpl; lia | exact HCmax |].
  cbv zeta in Hrun.
  change (fst r0) with (Pool (Buf (Ptr (length h0) 0) C) [Buf (Ptr (length h0) 0) C]) in Hbufs.
  rewrite Hrun in Hbufs. cbn [fst replicate arena.greedy] in Hbufs.
  repeat match type of Hbufs with
         | context [?a >? ?b] => destruct (Z.gtb_spec a b)
         end;
    injection Hbufs as <- <- <- <-;
    do 4 (destruct k as [| k]; [eexists; split; [reflexivity |];
                                split; [reflexivity |];
                                split; intros; simpl; try lia; try reflexivity;
                                repeat f_equal; lia |]);
    lia.
Qed.

End InitTiles.

Lemma in_bounds_point_resolves_to_its_tile_witness :
  exists n : quad.node,
    quad.map_deref
      (fst (fst (fst (quad.init unit examples.null_section examples.null_indexnode
                                quad.new_map tt (fst examples.one_tile_pool)
                                (snd examples.one_tile_pool)))))
      (quad.map_get (Ivec2 600 10)) = Some n
    /\ grid.in_footprint (quad.node_pos n) (quad.node_res n) (Ivec2 600 10).
Proof.
  destruct (in_bounds_point_resolves_to_its_tile unit examples.null_section
              examples.null_indexnode tt (fst examples.one_tile_pool)
              (snd examples.one_tile_pool) (Ivec2 600 10) eq_refl)
    as (n & _ & Hderef & Hin).
  exists n. split; assumption.
Defined.

Lemma init_backs_tiles_while_capacity_lasts_witness :
  exists n : quad.node,
    quad.map_nodes
      (fst (fst (fst (quad.init unit examples.null_section examples.null_indexnode
                                quad.new_map tt (fst (new_pool tt 150000 []))
                                (snd (new_pool tt 150000 [])))))) !! 1%nat = Some n
    /\ slice_root (quad.node_s n) = Buf (Ptr 0%nat 65536) 65536.
Proof.
  destruct (init_backs_tiles_while_capacity_lasts tt unit examples.null_section
              examples.null_indexnode tt 150000 [] 1%nat
              ltac:(unfold size_range, size_max; lia) ltac:(lia))
    as (n & Hn & _ & Hlive & _).
  exists n. split; [exact Hn |]. apply Hlive. lia.
Defined.

(** * Reading heights and normals *)

Section Normals.

Context `{Glm}.

Lemma slice_oob_rectangle (s : slice) (a b c d : Z) :
  slice_oob s (Ivec2 a b) = false -> slice_oob s (Ivec2 c d) = false ->
  slice_oob s (Ivec2 a d) = false.
Proof. rewrite !slice_oob_false. simpl. lia. Qed.

(** The four diagonal and the four axis neighbours of [p] at step [L]. *)
Lemma neighbours (L : Z) (p : ivec2) :
  int_range (x p) -> int_range (y p) -> - int_max <= L <= int_max ->
  let a := wrap_int (x p + L) in
  let a' := wrap_int (x p - L) in
  let b := wrap_int (y p + L) in
  let b' := wrap_int (y p - L) in
  ivec2_add p (ivec2_scale L (Ivec2 0 1)) = Ivec2 (x p) b
  /\ ivec2_add p (ivec2_scale L (Ivec2 1 0)) = Ivec2 a (y p)
  /\ ivec2_sub p (ivec2_scale L (Ivec2 0 1)) = Ivec2 (x p) b'
  /\ ivec2_sub p (ivec2_scale L (Ivec2 1 0)) = Ivec2 a' (y p)
  /\ ivec2_add p (ivec2_scale L (Ivec2 1 1)) = Ivec2 a b
  /\ ivec2_add p (ivec2_scale L (Ivec2 (-1) (-1))) = Ivec2 a' b'
  /\ ivec2_add p (ivec2_scale L (Ivec2 1 (-1))) = Ivec2 a b'
  /\ ivec2_add p (ivec2_scale L (Ivec2 (-1) 1)) = Ivec2 a' b.
Proof.
  intros Hx Hy HL. cbv zeta.
  assert (HL1 : int_mul L 1 = L).
  { unfold int_mul. rewrite Z.mul_1_r. apply wrap_int_id.
    unfold int_range, int_min, int_max in *. lia. }
  assert (HLm : int_mul L (-1) = - L).
  { unfold int_mul. replace (L * -1) with (- L) by lia. apply wrap_int_id.
    unfold int_range, int_min, int_max in *. lia. }
  assert (HL0 : int_mul L 0 = 0).
  { unfold int_mul. rewrite Z.mul_0_r. reflexivity. }
  unfold ivec2_add, ivec2_sub, ivec2_scale, int_add, int_sub. simpl.
  rewrite HL1, HLm, HL0, !Z.add_0_r, !Z.sub_0_r, !Z.add_opp_r.
  rewrite (wrap_int_id _ Hx), (wrap_int_id _ Hy).
  repeat split; reflexivity.
Qed.

(** With an [oob] that tests the two coordinates separately and a [height]
    that can be read wherever [oob] is false, the guards of the normal are
    enough at an in-bounds point. *)
Lemma normal_body_defined (L : Z) (s : vec3) (oob : ivec2 -> bool)
      (height : ivec2 -> option float) (p : ivec2) :
  (forall a b c d, oob (Ivec2 a b) = false -> oob (Ivec2 c d) = false ->
                   oob (Ivec2 a d) = false) ->
  (forall q, oob q = false -> is_Some (height q)) ->
  int_range (x p) -> int_range (y p) -> - int_max <= L <= int_max ->
  oob p = false ->
  is_Some (normal_body L s oob height p).
Proof.
  intros Hrect Hread Hx Hy HL Hp.
  destruct (neighbours L p Hx Hy HL) as (Hu & Hr & Hd & Hl & H11 & Hmm & H1m & Hm1).
  cbv zeta in *. unfold normal_body. rewrite Hu, Hr, Hd, Hl, H11, Hmm, H1m, Hm1.
  destruct p as [px py]. simpl in *.
  destruct (Hread _ Hp) as [hp Ehp]. rewrite Ehp.
  set (a := wrap_int (px + L)). set (a' := wrap_int (px - L)).
  set (b := wrap_int (py + L)). set (b' := wrap_int (py - L)).
  assert (Hside : forall c d, oob (Ivec2 c d) = false ->
             is_Some (height (Ivec2 px d)) /\ is_Some (height (Ivec2 c py))).
  { intros c d Hc. split; apply Hread.
    - exact (Hrect px py c d Hp Hc).
    - exact (Hrect c d px py Hc Hp). }
  assert (Hguard : forall c d, oob (Ivec2 c d) = false ->
             exists u v, height (Ivec2 px d) = Some u /\ height (Ivec2 c py) = Some v).
  { intros c d Hc. destruct (Hside c d Hc) as [[u Hu'] [v Hv']]. eauto. }
  destruct (oob (Ivec2 a b)) eqn:G1; simpl;
    [| destruct (Hguard a b G1) as (? & ? & E1 & E2); rewrite ?E1, ?E2; simpl];
    (destruct (oob (Ivec2 a' b')) eqn:G2; simpl;
       [| destruct (Hguard a' b' G2) as (? & ? & E3 & E4); rewrite ?E3, ?E4; simpl]);
    (destruct (oob (Ivec2 a b')) eqn:G3; simpl;
       [| destruct (Hguard a b' G3) as (? & ? & E5 & E6); rewrite ?E5, ?E6; simpl]);
    (destruct (oob (Ivec2 a' b)) eqn:G4; simpl;
       [| destruct (Hguard a' b G4) as (? & ? & E7 & E8); rewrite ?E7, ?E8; simpl]);
    eexists; reflexivity.
Qed.

(** With a [height] that can be read everywhere, the normal is defined
    everywhere. *)
Lemma normal_body_total (L : Z) (s : vec3) (oob : ivec2 -> bool)
      (height : ivec2 -> option float) (p : ivec2) :
  (forall q, is_Some (height q)) -> is_Some (normal_body L s oob height p).
Proof.
  intros Hread. unfold normal_body.
  destruct (Hread p) as [hp ->].
  repeat match goal with
         | |- context [height ?q] =>
             lazymatch q with
             | p => fail
             | _ => let v := fresh "v" in let E := fresh "E" in
                    destruct (Hread q) as [v E]; rewrite E
             end
         end.
  repeat match goal with
         | |- context [negb ?g] => destruct g; simpl
         end;
    eexists; reflexivity.
Qed.

(** If the height at [p] itself cannot be read, a single passing guard
    makes the normal undefined. *)
Lemma normal_body_undefined (L : Z) (s : vec3) (oob : ivec2 -> bool)
      (height : ivec2 -> option float) (p : ivec2) :
  height p = None ->
  oob (ivec2_add p (ivec2_scale L (Ivec2 1 1))) = false
  \/ oob (ivec2_add p (ivec2_scale L (Ivec2 (-1) (-1)))) = false
  \/ oob (ivec2_add p (ivec2_scale L (Ivec2 1 (-1)))) = false
  \/ oob (ivec2_add p (ivec2_scale L (Ivec2 (-1) 1))) = false ->
  normal_body L s oob height p = None.
Proof.
  intros Hp Hguard. unfold normal_body. rewrite Hp.
  assert (Hrise : forall q (k : float -> option float),
             (hq ← height q; (None : option float) ≫= k) = None).
  { intros q k. destruct (height q); reflexivity. }
  destruct (oob (ivec2_add p (ivec2_scale L (Ivec2 1 1)))); simpl;
    [| destruct (height (ivec2_add p (ivec2_scale L (Ivec2 0 1)))); reflexivity].
  destruct (oob (ivec2_add p (ivec2_scale L (Ivec2 (-1) (-1))))); simpl;
    [| destruct (height (ivec2_sub p (ivec2_scale L (Ivec2 0 1)))); reflexivity].
  destruct (oob (ivec2_add p (ivec2_scale L (Ivec2 1 (-1))))); simpl;
    [| destruct (height (ivec2_add p (ivec2_scale L (Ivec2 1 0)))); reflexivity].
  destruct (oob (ivec2_add p (ivec2_scale L (Ivec2 (-1) 1)))); simpl;
    [| destruct (height (ivec2_sub p (ivec2_scale L (Ivec2 1 0)))); reflexivity].
  destruct Hguard as [G | [G | [G | G]]]; discriminate.
Qed.

End Normals.

(** A slice whose root lies inside an array of the heap is backed. *)
Lemma contract_is_backed {T : Type} (h : heap (T := T)) (s : slice)
      (b : block) (o : Z) (cells : list T) :
  buf_start (slice_root s) = Ptr b o -> 0 <= o ->
  h !! b = Some cells ->
  o + x (slice_res s) * y (slice_res s) <= Z.of_nat (length cells) ->
  grid.backed h s.
Proof.
  intros Hstart Ho Hblock Hlen q Hq.
  rewrite (slice_get_in_bounds s q b o Hstart Hq). unfold load.
  apply slice_oob_false in Hq as [Hx Hy].
  pose proof (flatten_range q (slice_res s) Hx Hy) as Hflat.
  destruct (Z.ltb_spec (o + flatten q (slice_res s)) 0); [lia |].
  unfold heap in *. rewrite Hblock. apply lookup_lt_is_Some. lia.
Qed.

Section NodeQueries.

Context `{Glm}.

Lemma quad_node_height_in_bounds (h : heap (T := quad.cell float)) (t : quad.node) (q : ivec2) :
  grid.backed h (quad.node_s t) -> quad.node_oob t q = false ->
  is_Some (quad.node_height h t q) /\ is_Some (quad.node_discharge h t q).
Proof.
  intros Hb Hq. unfold quad.node_height, quad.node_discharge, quad.node_get.
  destruct (Hb _ Hq) as [c ->]. simpl. split; eexists; reflexivity.
Qed.

Lemma quad_node_height_null (h : heap (T := quad.cell float)) (t : quad.node) (q : ivec2) :
  quad.node_get t q = NULL ->
  quad.node_height h t q = None /\ quad.node_discharge h t q = None.
Proof.
  intros Hq. unfold quad.node_height, quad.node_discharge. rewrite Hq. split; reflexivity.
Qed.

Lemma reduce_height_in_bounds (h : heap (T := reduce.cell float)) (t : quadmap.node)
      (q : ivec2) :
  grid.backed h (quadmap.node_s t) -> quadmap.node_oob t q = false ->
  is_Some (reduce.height_node h t q) /\ is_Some (reduce.discharge_node h t q).
Proof.
  intros Hb Hq. unfold reduce.height_node, reduce.discharge_node, quadmap.node_get.
  destruct (Hb _ Hq) as [c ->]. simpl. split; eexists; reflexivity.
Qed.

Lemma reduce_height_null (h : heap (T := reduce.cell float)) (t : quadmap.node) (q : ivec2) :
  quadmap.node_get t q = NULL ->
  reduce.height_node h t q = None /\ reduce.discharge_node h t q = None.
Proof.
  intros Hq. unfold reduce.height_node, reduce.discharge_node. rewrite Hq. split; reflexivity.
Qed.

(** X10.  The normal of a backed tile is defined at every in-bounds point:
    whenever a guard lets a pair of neighbouring heights be read, both
    neighbours are in bounds, because [oob] tests each coordinate on its
    own.  This holds for [quad::node::normal] and for [reduce::normal] on a
    node, whatever the sampling step. *)
Theorem node_normal_is_defined_in_bounds :
  (forall (h : heap (T := quad.cell float)) (t : quad.node) (p : ivec2),
      grid.backed h (quad.node_s t) ->
      int_range (x p) -> int_range (y p) ->
      quad.node_oob t p = false ->
      is_Some (quad.node_normal h t p))
  /\ (forall (RES : Z) (SCALE : float) (h : heap (T := reduce.cell float))
             (t : quadmap.node) (p : ivec2),
      - int_max <= RES <= int_max ->
      grid.backed h (quadmap.node_s t) ->
      int_range (x p) -> int_range (y p) ->
      quadmap.node_oob t p = false ->
      is_Some (reduce.normal_node RES SCALE h t p)).
Proof.
  split.
  - intros h t p Hb Hx Hy Hp. unfold quad.node_normal, quad._normal.
    apply normal_body_defined; try assumption.
    + intros a b c d. unfold quad.node_oob. apply slice_oob_rectangle.
    + intros q Hq. apply (quad_node_height_in_bounds h t q Hb Hq).
    + unfold quad.levelsize, int_max. lia.
  - intros RES SCALE h t p HRES Hb Hx Hy Hp. unfold reduce.normal_node.
    apply normal_body_defined; try assumption.
    + intros a b c d. unfold quadmap.node_oob. apply slice_oob_rectangle.
    + intros q Hq. apply (reduce_height_in_bounds h t q Hb Hq).
Qed.

(** X11.  Nothing in the normal tests [p] itself: at an out-of-bounds
    point whose diagonal neighbour in some direction is in bounds, the
    height at [p] is read through a null pointer and the normal is
    undefined. *)
Theorem node_normal_out_of_bounds_reads_null :
  (forall (h : heap (T := quad.cell float)) (t : quad.node) (p : ivec2),
      quad.node_oob t p = true ->
      quad.node_oob t (ivec2_add p (ivec2_scale quad.levelsize (Ivec2 1 1))) = false
      \/ quad.node_oob t (ivec2_add p (ivec2_scale quad.levelsize (Ivec2 (-1) (-1)))) = false
      \/ quad.node_oob t (ivec2_add p (ivec2_scale quad.levelsize (Ivec2 1 (-1)))) = false
      \/ quad.node_oob t (ivec2_add p (ivec2_scale quad.levelsize (Ivec2 (-1) 1))) = false ->
      quad.node_height h t p = None /\ quad.node_normal h t p = None)
  /\ (forall (RES : Z) (SCALE : float) (h : heap (T := reduce.cell float))
             (t : quadmap.node) (p : ivec2),
      quadmap.node_oob t p = true ->
      quadmap.node_oob t (ivec2_add p (ivec2_scale RES (Ivec2 1 1))) = false
      \/ quadmap.node_oob t (ivec2_add p (ivec2_scale RES (Ivec2 (-1) (-1)))) = false
      \/ quadmap.node_oob t (ivec2_add p (ivec2_scale RES (Ivec2 1 (-1)))) = false
      \/ quadmap.node_oob t (ivec2_add p (ivec2_scale RES (Ivec2 (-1) 1))) = false ->
      reduce.height_node h t p = None /\ reduce.normal_node RES SCALE h t p = None).
Proof.
  split.
  - intros h t p Hp Hguard.
    assert (Hnull : quad.node_get t p = NULL).
    { unfold quad.node_get. apply slice_get_null. right. exact Hp. }
    destruct (quad_node_height_null h t p Hnull) as [Hh _].
    split; [exact Hh |]. unfold quad.node_normal, quad._normal.
    apply normal_body_undefined; assumption.
  - intros RES SCALE h t p Hp Hguard.
    assert (Hnull : quadmap.node_get t p = NULL).
    { unfold quadmap.node_get. apply slice_get_null. right. exact Hp. }
    destruct (reduce_height_null h t p Hnull) as [Hh _].
    split; [exact Hh |]. unfold reduce.normal_node.
    apply normal_body_undefined; assumption.
Qed.

End NodeQueries.

Lemma node_normal_is_defined_in_bounds_witness :
  is_Some (quad.node_normal (H := examples.z_float) (H0 := examples.z_glm)
             examples.quad_heap examples.quad_tile (Ivec2 2 4)).
Proof.
  apply (proj1 (node_normal_is_defined_in_bounds (H := examples.z_float)
                  (H0 := examples.z_glm))).
  - apply (contract_is_backed examples.quad_heap (quad.node_s examples.quad_tile) 0%nat 0
             (map (fun c => quad.Cell Z c 0 0 0 0 0 0) (seqZ 0 16)));
      [reflexivity | lia | reflexivity | simpl; lia].
  - vm_compute. split; discriminate.
  - vm_compute. split; discriminate.
  - reflexivity.
Defined.

Lemma node_normal_out_of_bounds_reads_null_witness :
  quad.node_normal (H := examples.z_float) (H0 := examples.z_glm)
    examples.quad_heap examples.quad_tile (Ivec2 (-2) (-2)) = None.
Proof.
  apply (proj1 (node_normal_out_of_bounds_reads_null (H := examples.z_float)
                  (H0 := examples.z_glm))
               examples.quad_heap examples.quad_tile (Ivec2 (-2) (-2))).
  - reflexivity.
  - left. reflexivity.
Defined.

Section MapQueries.

Context `{Glm}.
Variable Vertexpool : Type.
Variable vertexpool_section : Z -> Vertexpool -> ptr * Vertexpool.
Variable indexnode : Z -> Vertexpool -> quad.node -> Vertexpool.

(** The tile of [init]'s map that [get] returns for an in-bounds point
    accepts that point. *)
Lemma init_owner (vp : Vertexpool) (cp : pool) (h0 : heap (T := quad.cell float))
      (p : ivec2) :
  quad.map_oob p = false ->
  let m := fst (fst (fst (quad.init Vertexpool vertexpool_section indexnode
                                    quad.new_map vp cp h0))) in
  exists (k : Z) (n : quad.node),
    quad.map_get p = NodeAt k
    /\ quad.map_deref m (NodeAt k) = Some n
    /\ quad.node_oob n p = false.
Proof.
  intros Hoob m. apply quad_map_oob_false in Hoob as [Hx Hy].
  pose proof (Z.div_mod (x p) 512 ltac:(lia)) as Hdx.
  pose proof (Z.mod_pos_bound (x p) 512 ltac:(lia)) as Hmx.
  pose proof (Z.div_mod (y p) 512 ltac:(lia)) as Hdy.
  pose proof (Z.mod_pos_bound (y p) 512 ltac:(lia)) as Hmy.
  assert (Hi : 0 <= x p / 512 < 2).
  { split; [apply Z.div_pos; lia | apply Z.div_lt_upper_bound; lia]. }
  assert (Hj : 0 <= y p / 512 < 2).
  { split; [apply Z.div_pos; lia | apply Z.div_lt_upper_bound; lia]. }
  destruct (quad_map_get_tile (x p / 512) (y p / 512) p Hi Hj) as [Hget _].
  { rewrite (quad_tile_origin _ _ Hi Hj). change quad.tileres with (Ivec2 512 512).
    unfold grid.in_footprint. simpl. lia. }
  destruct (init_tile Vertexpool vertexpool_section indexnode vp cp h0
              (x p / 512) (y p / 512) Hi Hj) as (b & vertex & _ & Hnode).
  eexists. eexists. split; [exact Hget |]. split.
  - unfold quad.map_deref. change quad.mapsize with 2.
    destruct (Z.ltb_spec (x p / 512 * 2 + y p / 512) 0); [lia | exact Hnode].
  - unfold quad.node_oob.
    apply (local_in_bounds (Slice b (Ivec2 256 256) 1)
             (Ivec2 (x p / 512 * 512) (y p / 512 * 512)) p quad.levelsize);
      try (unfold quad.levelsize; simpl; lia);
      try (unfold int_range, int_min, int_max, quad.levelsize; simpl; lia).
Qed.

(** X12.  On the map [init] builds, [map::height] and [map::discharge] are
    [0.0f] outside the map; inside they are what the owning tile reports
    at the same point, and that tile accepts the point.  They are defined
    when the tile is backed and read through a null pointer when its
    allocation had failed. *)
Theorem map_height_reads_the_owning_tile
        (vp : Vertexpool) (cp : pool) (h0 h : heap (T := quad.cell float)) (p : ivec2) :
  let m := fst (fst (fst (quad.init Vertexpool vertexpool_section indexnode
                                    quad.new_map vp cp h0))) in
  (quad.map_oob p = true ->
   quad.map_height h m p = Some f_zero /\ quad.map_discharge h m p = Some f_zero)
  /\ (quad.map_oob p = false ->
      exists n : quad.node,
        quad.map_deref m (quad.map_get p) = Some n
        /\ quad.node_oob n p = false
        /\ quad.map_height h m p = quad.node_height h n p
        /\ quad.map_discharge h m p = quad.node_discharge h n p
        /\ (grid.backed h (quad.node_s n) ->
            is_Some (quad.map_height h m p) /\ is_Some (quad.map_discharge h m p))
        /\ (buf_start (slice_root (quad.node_s n)) = NULL ->
            quad.map_height h m p = None /\ quad.map_discharge h m p = None)).
Proof.
  intros m. split.
  - intros Hoob. unfold quad.map_height, quad.map_discharge, quad.map_get.
    rewrite Hoob. split; reflexivity.
  - intros Hoob.
    destruct (init_owner vp cp h0 p Hoob) as (k & n & Hget & Hderef & Hin).
    fold m in Hderef.
    assert (Hh : quad.map_height h m p = quad.node_height h n p).
    { unfold quad.map_height. rewrite Hget, Hderef. reflexivity. }
    assert (Hd : quad.map_discharge h m p = quad.node_discharge h n p).
    { unfold quad.map_discharge. rewrite Hget, Hderef. reflexivity. }
    exists n. rewrite Hget, Hh, Hd.
    repeat split; try assumption.
    + apply (quad_node_height_in_bounds h n p); assumption.
    + apply (quad_node_height_in_bounds h n p); assumption.
    + apply (quad_node_height_null h n p). unfold quad.node_get.
      apply slice_get_dead. assumption.
    + apply (quad_node_height_null h n p). unfold quad.node_get.
      apply slice_get_dead. assumption.
Qed.

(** With every tile backed, the three map queries can be read anywhere. *)
Lemma map_queries_total_if_backed
      (vp : Vertexpool) (cp : pool) (h0 h : heap (T := quad.cell float)) (p : ivec2) :
  let m := fst (fst (fst (quad.init Vertexpool vertexpool_section indexnode
                                    quad.new_map vp cp h0))) in
  (forall (k : nat) (n : quad.node),
      quad.map_nodes m !! k = Some n -> grid.backed h (quad.node_s n)) ->
  is_Some (quad.map_height h m p) /\ is_Some (quad.map_discharge h m p)
  /\ is_Some (quad.map_normal h m p).
Proof.
  intros m Hbacked.
  assert (Hread : forall q, is_Some (quad.map_height h m q)
                            /\ is_Some (quad.map_discharge h m q)).
  { intros q. destruct (quad.map_oob q) eqn:Hoob.
    - unfold quad.map_height, quad.map_discharge, quad.map_get. rewrite Hoob.
      split; eexists; reflexivity.
    - destruct (init_owner vp cp h0 q Hoob) as (k & n & Hget & Hderef & Hin).
      fold m in Hderef. unfold quad.map_height, quad.map_discharge.
      rewrite Hget, Hderef. simpl.
      apply (quad_node_height_in_bounds h n q); [| exact Hin].
      unfold quad.map_deref in Hderef.
      destruct (k <? 0); [discriminate Hderef |]. exact (Hbacked _ _ Hderef). }
  split; [apply Hread |]. split; [apply Hread |].
  unfold quad.map_normal, quad._normal. apply normal_body_total.
  intros q. apply Hread.
Qed.

(** X13.  When every tile of the map [init] builds is backed,
    [map::height] and [map::normal] are defined at every point, in or out
    of the map: [map::height] makes its own bounds test, so the normal
    needs no guard to be safe. *)
Theorem map_normal_is_defined_everywhere
        (vp : Vertexpool) (cp : pool) (h0 h : heap (T := quad.cell float)) (p : ivec2) :
  let m := fst (fst (fst (quad.init Vertexpool vertexpool_section indexnode
                                    quad.new_map vp cp h0))) in
  (forall (k : nat) (n : quad.node),
      quad.map_nodes m !! k = Some n -> grid.backed h (quad.node_s n)) ->
  is_Some (quad.map_height h m p) /\ is_Some (quad.map_normal h m p).
Proof.
  intros m Hbacked.
  destruct (map_queries_total_if_backed vp cp h0 h p Hbacked) as (Hh & _ & Hn).
  split; assumption.
Qed.

(** X16.  On a fresh pool of at least [4 * 65536] cells, [init] followed
    by any number of queries is safe: whatever the cells hold by then,
    [map::height], [map::discharge] and [map::normal] are defined at every
    point, as long as the pool's array is still in the heap. *)
Theorem queries_are_safe_on_a_large_enough_pool
        (indeterminate : quad.cell float) (vp : Vertexpool) (C : Z)
        (h0 h : heap (T := quad.cell float)) (cells : list (quad.cell float)) (p : ivec2) :
  size_range C -> 262144 <= C ->
  h !! length h0 = Some cells -> 262144 <= Z.of_nat (length cells) ->
  let r0 := new_pool indeterminate C h0 in
  let m := fst (fst (fst (quad.init Vertexpool vertexpool_section indexnode
                                    quad.new_map vp (fst r0) (snd r0)))) in
  is_Some (quad.map_height h m p) /\ is_Some (quad.map_discharge h m p)
  /\ is_Some (quad.map_normal h m p).
Proof.
  intros [HC0 HCmax] HC Hblock Hlen r0 m.
  apply (map_queries_total_if_backed vp (fst r0) (snd r0) h p).
  intros k n Hn.
  destruct (init_nodes Vertexpool vertexpool_section indexnode vp (fst r0) (snd r0))
    as (v0 & v1 & v2 & v3 & b0 & b1 & b2 & b3 & Hbufs & Hnodes).
  rewrite Hnodes in Hn.
  destruct (pool_get_all_greedy (replicate 4 65536) (Buf (Ptr (length h0) 0) C)
              (length h0) 0 C [] (snd r0)) as [Hrun _];
    [repeat constructor; lia | simpl; lia | exact HCmax |].
  cbv zeta in Hrun.
  change (fst r0) with (Pool (Buf (Ptr (length h0) 0) C) [Buf (Ptr (length h0) 0) C]) in Hbufs.
  rewrite Hrun in Hbufs. cbn [fst replicate arena.greedy] in Hbufs.
  repeat match type of Hbufs with
         | context [?a >? ?b] => destruct (Z.gtb_spec a b); [lia |]
         end.
  injection Hbufs as <- <- <- <-.
  do 4 (destruct k as [| k];
        [injection Hn as <-;
         eapply (contract_is_backed h _ (length h0) _ cells);
         [reflexivity | lia | exact Hblock | cbn [x y slice_res quad.node_s]; lia] |]).
  discriminate Hn.
Qed.

End MapQueries.

Lemma map_height_reads_the_owning_tile_witness :
  quad.map_height (H := examples.z_float) examples.full_heap
    (fst (fst (fst (quad.init unit examples.null_section examples.null_indexnode
                              quad.new_map tt (fst (examples.cell_pool 65536))
                              (snd (examples.cell_pool 65536))))))
    (Ivec2 2000 5)
  = Some 0.
Proof.
  apply (proj1 (map_height_reads_the_owning_tile (H := examples.z_float)
                  unit examples.null_section
                  examples.null_indexnode tt (fst (examples.cell_pool 65536))
                  (snd (examples.cell_pool 65536)) examples.full_heap (Ivec2 2000 5))).
  reflexivity.
Defined.

Lemma map_normal_is_defined_everywhere_witness :
  is_Some (quad.map_normal (H := examples.z_float) (H0 := examples.z_glm)
             examples.full_heap
             (fst (fst (fst (quad.init unit examples.null_section examples.null_indexnode
                                       quad.new_map tt (fst (examples.cell_pool 262144))
                                       (snd (examples.cell_pool 262144))))))
             (Ivec2 511 1023)).
Proof.
  refine (proj2 (map_normal_is_defined_everywhere (H := examples.z_float)
                   (H0 := examples.z_glm)
                   unit examples.null_section examples.null_indexnode tt
                   (fst (examples.cell_pool 262144)) (snd (examples.cell_pool 262144))
                   examples.full_heap (Ivec2 511 1023) _)).
  intros k n Hn.
  destruct (init_nodes (T := quad.cell (@float examples.z_float))
              unit examples.null_section examples.null_indexnode tt
              (fst (examples.cell_pool 262144)) (snd (examples.cell_pool 262144)))
    as (v0 & v1 & v2 & v3 & b0 & b1 & b2 & b3 & Hbufs & Hnodes).
  rewrite Hnodes in Hn.
  destruct (pool_get_all_greedy (T := quad.cell (@float examples.z_float))
              (replicate 4 65536) (Buf (Ptr 0%nat 0) 262144)
              0%nat 0 262144 [] (snd (examples.cell_pool 262144))) as [Hrun _];
    [repeat constructor; lia | simpl; lia | unfold size_max; lia |].
  cbv zeta in Hrun.
  change (fst (examples.cell_pool 262144))
    with (Pool (Buf (Ptr 0%nat 0) 262144) [Buf (Ptr 0%nat 0) 262144]) in Hbufs.
  rewrite Hrun in Hbufs. cbn [fst replicate arena.greedy] in Hbufs.
  injection Hbufs as <- <- <- <-.
  do 4 (destruct k as [| k];
        [injection Hn as <-;
         eapply (contract_is_backed examples.full_heap _ 0%nat _
                   (replicate (Z.to_nat 262144) (quad.Cell Z 7 0 0 0 0 0 0)));
         [reflexivity | lia | reflexivity
          | rewrite length_replicate; cbn [x y slice_res quad.node_s]; lia] |]).
  discriminate Hn.
Defined.

(** * The reductions over the templated map *)

Lemma quot_le_minus_one (d k : Z) : 1 <= k -> d <= - k -> Z.quot d k <= -1.
Proof.
  intros Hk Hd. replace d with (- (- d)) by lia. rewrite Z.quot_opp_l by lia.
  assert (1 <= Z.quot (- d) k); [| lia].
  apply Z.quot_le_lower_bound; lia.
Qed.

(** A tile index, read as a world point, lies left of (or below) every
    tile but the first. *)
Lemma index_is_outside_its_tile (W sc i : Z) :
  1 <= sc <= W - 1 -> 1 <= i -> i * W <= int_max ->
  int_div (int_sub i (i * W)) sc < 0.
Proof.
  intros Hsc Hi HiW.
  assert (Hd : int_range (i - i * W)) by (unfold int_range, int_min, int_max in *; nia).
  unfold int_sub. rewrite (wrap_int_id _ Hd).
  rewrite int_div_quot by (assumption || lia).
  pose proof (quot_le_minus_one (i - i * W) sc ltac:(lia) ltac:(nia)). lia.
Qed.

Section ReduceFacts.

Context `{Glm}.

(** X14.  [reduce::height] and [reduce::discharge] on a map divide [p] by
    the tile extent in place and hand the quotient, not the world point, to
    the tile: in a uniform grid the value read for a point of tile
    [(i, j)] is that tile's value at the world point [(i, j)].  With a
    scale below the tile extent this point lies outside every tile but the
    first, where the read goes through a null pointer; in the first tile
    every point reads the cell of the origin. *)
Theorem reduce_height_passes_the_tile_index :
  forall (WSIZE TILES : Z) (h : heap (T := reduce.cell float)) (m : quadmap.map)
         (k : nat) (n : quadmap.node) (p : ivec2),
    grid.uniform WSIZE TILES m ->
    quadmap.map_nodes m !! k = Some n ->
    grid.in_footprint (quadmap.node_pos n) (quadmap.node_res n) p ->
    let q := Ivec2 (x p / WSIZE) (y p / WSIZE) in
    quadmap.node_pos n = Ivec2 (x q * WSIZE) (y q * WSIZE)
    /\ reduce.height_map WSIZE TILES h m p = reduce.height_node h n q
    /\ reduce.discharge_map WSIZE TILES h m p = reduce.discharge_node h n q
    /\ (1 <= slice_scale (quadmap.node_s n) <= WSIZE - 1 -> q <> Ivec2 0 0 ->
        reduce.height_map WSIZE TILES h m p = None
        /\ reduce.discharge_map WSIZE TILES h m p = None).
Proof.
  intros W N h m k n p Hu Hk Hin q.
  pose proof (uniform_in_bounds W N m k n p Hu Hk Hin) as Hoob.
  destruct (uniform_lookup W N m k n Hu Hk) as (i & j & Hi & Hj & Hind & Hpos & Hres).
  destruct Hu as (HW & HN & HNW & HNN & _).
  rewrite Hpos, Hres in Hin.
  destruct (lattice_index W N p i j HW HNW HNN Hi Hj Hin) as [Hget _].
  destruct Hin as [Hx Hy]. simpl in Hx, Hy.
  destruct (lattice_quotient W N i (x p) HW HNW Hi Hx) as [Hdx Hqx].
  destruct (lattice_quotient W N j (y p) HW HNW Hj Hy) as [Hdy Hqy].
  assert (Hq : q = Ivec2 i j).
  { subst q. rewrite <- Hqx, <- Hqy. rewrite !Z.quot_div_nonneg by nia. reflexivity. }
  assert (Hdiv : ivec2_div p (Ivec2 W W) = Ivec2 i j).
  { unfold ivec2_div. simpl. rewrite Hdx, Hdy. reflexivity. }
  assert (Hderef : quadmap.map_deref m (NodeAt (i * N + j)) = Some n).
  { unfold quadmap.map_deref. destruct (Z.ltb_spec (i * N + j) 0); [nia |].
    rewrite <- Hind, Nat2Z.id. exact Hk. }
  assert (Hh : reduce.height_map W N h m p = reduce.height_node h n q).
  { unfold reduce.height_map. rewrite Hoob. cbv zeta. rewrite Hget, Hdiv, Hderef, Hq.
    reflexivity. }
  assert (Hd : reduce.discharge_map W N h m p = reduce.discharge_node h n q).
  { unfold reduce.discharge_map. rewrite Hoob. cbv zeta. rewrite Hget, Hdiv, Hderef, Hq.
    reflexivity. }
  split; [rewrite Hq, Hpos; reflexivity |].
  split; [exact Hh |]. split; [exact Hd |].
  intros Hsc Hne. rewrite Hh, Hd, Hq. apply reduce_height_null.
  unfold quadmap.node_get. apply slice_get_null. right. apply slice_oob_true.
  rewrite Hpos. unfold ivec2_div_int, ivec2_sub. simpl.
  assert (Hij : 1 <= i \/ 1 <= j).
  { destruct (Z.eq_dec i 0) as [-> | ?]; [| lia].
    destruct (Z.eq_dec j 0) as [-> | ?]; [| lia].
    rewrite Hq in Hne. congruence. }
  destruct Hij as [Hi1 | Hj1].
  - left. apply (index_is_outside_its_tile W _ i Hsc Hi1). nia.
  - right. left. apply (index_is_outside_its_tile W _ j Hsc Hj1). nia.
Qed.

End ReduceFacts.

Lemma reduce_height_passes_the_tile_index_witness :
  reduce.height_map (H := examples.z_float) 4 2 examples.small_heap examples.small_grid
                    (Ivec2 5 2)
  = None.
Proof.
  refine (proj1 (proj2 (proj2 (proj2
            (reduce_height_passes_the_tile_index (H := examples.z_float) 4 2
               examples.small_heap examples.small_grid 2%nat (examples.small_tile 1 0)
               (Ivec2 5 2) _ eq_refl _))) _ _)).
  - unfold grid.uniform. repeat split; try (unfold int_max; lia).
    intros i j Hi Hj.
    assert (Hi' : i = 0 \/ i = 1) by lia. assert (Hj' : j = 0 \/ j = 1) by lia.
    destruct Hi' as [-> | ->]; destruct Hj' as [-> | ->];
      eexists; (split; [reflexivity | split; reflexivity]).
  - unfold grid.in_footprint. simpl. lia.
  - simpl. lia.
  - discriminate.
Defined.

Lemma queries_are_safe_on_a_large_enough_pool_witness :
  is_Some (quad.map_height (H := examples.z_float)
             (snd (examples.cell_pool 262144))
             (fst (fst (fst (quad.init unit examples.null_section examples.null_indexnode
                                       quad.new_map tt (fst (examples.cell_pool 262144))
                                       (snd (examples.cell_pool 262144))))))
             (Ivec2 700 300)).
Proof.
  refine (proj1 (queries_are_safe_on_a_large_enough_pool (H := examples.z_float)
                   (H0 := examples.z_glm) unit examples.null_section
                   examples.null_indexnode (quad.Cell Z 0 0 0 0 0 0 0) tt 262144 []
                   (snd (examples.cell_pool 262144))
                   (replicate (Z.to_nat 262144) (quad.Cell Z 0 0 0 0 0 0 0))
                   (Ivec2 700 300) _ _ _ _)).
  - unfold size_range, size_max. lia.
  - lia.
  - reflexivity.
  - rewrite length_replicate. lia.
Defined.

(** * The index list of a tile's mesh *)

Lemma wrap_int_in_range (z : Z) : int_range (wrap_int z).
Proof.
  unfold int_range, int_min, int_max, wrap_int.
  pose proof (Z.mod_pos_bound (z + 2 ^ 31) (2 ^ 32) ltac:(lia)). lia.
Qed.

Lemma bind_length_const {A B : Type} (f : A -> list B) (l : list A) (c : nat) :
  (forall a, a ∈ l -> length (f a) = c) -> length (l ≫= f) = (length l * c)%nat.
Proof.
  induction l as [| a l IH]; intros Hc; [reflexivity |].
  rewrite bind_cons, length_app, (Hc a) by (apply elem_of_cons; left; reflexivity).
  rewrite IH by (intros a' Ha'; apply Hc; apply elem_of_cons; right; exact Ha').
  simpl. lia.
Qed.

(** X15.  For a node of [a = res.x / N] by [b = res.y / N] vertices,
    [indexnode<N>] appends nothing when there is at most one row or column
    (and [a - 1], [b - 1] do not overflow), and otherwise
    [6 (a - 1) (b - 1)] indices, each of them one of the [a b] vertices of
    the node. *)
Theorem indexnode_indices_count_and_range :
  forall (N : Z) (res : ivec2),
    let a := int_div (x res) N in
    let b := int_div (y res) N in
    (int_min < a <= 1 \/ int_min < b <= 1 -> indexnode_indices N res = [])
    /\ (1 <= a -> 1 <= b ->
        length (indexnode_indices N res) = Z.to_nat (6 * (a - 1) * (b - 1))
        /\ Forall (fun v => 0 <= v < a * b) (indexnode_indices N res)).
Proof.
  intros N res a b.
  assert (Ha : int_range a) by apply wrap_int_in_range.
  assert (Hb : int_range b) by apply wrap_int_in_range.
  assert (Ha1 : int_sub a 1 = a - 1 \/ a - 1 < 0 /\ int_sub a 1 >= 0).
  { unfold int_sub. destruct (Z.eq_dec a int_min) as [-> | Hne].
    - right. split; [unfold int_min; lia | vm_compute; discriminate].
    - left. apply wrap_int_id. unfold int_range, int_min, int_max in *. lia. }
  assert (Hb1 : int_sub b 1 = b - 1 \/ b - 1 < 0 /\ int_sub b 1 >= 0).
  { unfold int_sub. destruct (Z.eq_dec b int_min) as [-> | Hne].
    - right. split; [unfold int_min; lia | vm_compute; discriminate].
    - left. apply wrap_int_id. unfold int_range, int_min, int_max in *. lia. }
  unfold indexnode_indices. fold a b.
  split.
  - intros [Hle | Hle].
    + assert (Hwrap : int_sub a 1 = a - 1).
      { apply wrap_int_id. unfold int_range, int_min, int_max in *. lia. }
      rewrite Hwrap, (seqZ_nil 0 (a - 1)) by lia. reflexivity.
    + assert (Hwrap : int_sub b 1 = b - 1).
      { apply wrap_int_id. unfold int_range, int_min, int_max in *. lia. }
      rewrite Hwrap.
      rewrite (seqZ_nil 0 (b - 1)) by lia.
      induction (seqZ 0 (int_sub a 1)) as [| i l IH]; [reflexivity |].
      rewrite bind_cons, IH. reflexivity.
  - intros Ha' Hb'.
    destruct Ha1 as [-> | [Hneg _]]; [| lia].
    destruct Hb1 as [-> | [Hneg _]]; [| lia].
    split.
    + rewrite (bind_length_const _ _ (Z.to_nat (b - 1) * 6)%nat).
      * rewrite length_seqZ, !Z2Nat.inj_mul by lia.
        change (Z.to_nat 6) with 6%nat. lia.
      * intros i _. rewrite (bind_length_const _ _ 6%nat); [| reflexivity].
        rewrite length_seqZ. reflexivity.
    + apply Forall_bind, Forall_forall. intros i Hi.
      apply Forall_bind, Forall_forall. intros j Hj.
      apply elem_of_seqZ in Hi, Hj.
      assert (Hj1 : int_add j 1 = j + 1).
      { apply wrap_int_id. unfold int_range, int_min, int_max in *. lia. }
      assert (Hi1 : int_add i 1 = i + 1).
      { apply wrap_int_id. unfold int_range, int_min, int_max in *. lia. }
      unfold compose. cbv beta. rewrite Hi1, Hj1. unfold flatten, ivec2_div_int. simpl.
      fold a b.
      repeat constructor; nia.
Qed.

Lemma indexnode_indices_count_and_range_witness :
  Forall (fun v => 0 <= v < 256 * 256) (indexnode_indices 2 quad.tileres).
Proof.
  refine (proj2 (proj2 (indexnode_indices_count_and_range 2 quad.tileres) _ _)).
  - vm_compute. discriminate.
  - vm_compute. discriminate.
Defined.

(** The anchored row-major grid is one of the lattices of the claim's
    wording (origin [(0,0)], tile [(i, j)] found at index [i * TILES + j]). *)
Lemma uniform_is_on_lattice (W N : Z) (m : quadmap.map) :
  grid.uniform W N m -> grid.on_lattice W N m.
Proof.
  intros (HW & HN & HNW & HNN & Hadd & Hlen & Htiles).
  unfold grid.on_lattice. repeat split; try assumption.
  exists (Ivec2 0 0). intros i j Hi Hj.
  destruct (Htiles i j Hi Hj) as (n & Hn & Hpos & Hres).
  exists (Z.to_nat (i * N + j)), n. simpl. repeat split; assumption.
Qed.
